(** * MTC Snake: the game-state update loop of [SnakeGame.tsx]

    A shallow embedding of the game logic of the React component
    [src/components/SnakeGame.tsx]: the board, the placement generator, the
    tick engine ([moveSnake]), the input controller ([handleKeyPress]) and the
    score tracker, followed by the properties the specification states about
    them.

    Modelling decisions.
    - Coordinates, score and speed are JavaScript numbers that only ever hold
      small integers; they are modelled as [Z].
    - The component's [useState] cells and its two [useRef] cells form one
      record, [State]; every handler maps a [State] to the next one.  A
      handler runs against the state of the latest render (the interval and
      the key listener are re-installed whenever a dependency changes).
    - A state updater runs once per call, as in a production build; the
      setters it calls take effect together with the snake it returns.
    - [Math.random()] is an oracle: handlers that draw random numbers run in
      the monad [Rand], which reads the draws from a tape of rationals in
      [0,1).  A computation that needs more draws than the tape holds yields
      [None]; the rejection loop of [generateRandomPosition] therefore
      recurses on the tape and needs no fuel. *)

From Stdlib Require Import ZArith QArith Qround List Bool String Lia.
Import ListNotations.
Open Scope Z_scope.

(** ** Constants and data *)

Definition GRID_SIZE : Z := 15.
Definition INITIAL_SPEED : Z := 150.
Definition SPEED_INCREASE : Z := 5.
Definition MIN_SPEED : Z := 50.

Record Position : Type := mkPosition { x : Z; y : Z }.

Inductive Direction : Type := UP | DOWN | LEFT | RIGHT.

(** The imported image assets; only their identity matters. *)
Inductive Logo : Type := microsoftLogo | acmLogo | googleLogo.

Record Obstacle : Type := mkObstacle {
  position : Position;
  logo : Logo;
  id : Z
}.

Record State : Type := mkState {
  snake : list Position;
  food : Position;
  direction : Direction;
  gameOver : bool;
  score : Z;
  highScore : Z;
  isPaused : bool;
  gameStarted : bool;
  speed : Z;
  obstacles : list Obstacle;
  directionRef : Direction;
  obstacleIdRef : Z
}.

(** The values given to [useState] and [useRef] when the component mounts. *)
Definition initialState : State :=
  {| snake := [mkPosition 10 10];
     food := mkPosition 5 5;
     direction := RIGHT;
     gameOver := false;
     score := 0;
     highScore := 0;
     isPaused := false;
     gameStarted := false;
     speed := INITIAL_SPEED;
     obstacles := [];
     directionRef := RIGHT;
     obstacleIdRef := 0 |}.

(** Setters, one per state cell a handler writes. *)
Definition setSnake (v : list Position) (s : State) : State :=
  mkState v (food s) (direction s) (gameOver s) (score s) (highScore s)
          (isPaused s) (gameStarted s) (speed s) (obstacles s)
          (directionRef s) (obstacleIdRef s).
Definition setFood (v : Position) (s : State) : State :=
  mkState (snake s) v (direction s) (gameOver s) (score s) (highScore s)
          (isPaused s) (gameStarted s) (speed s) (obstacles s)
          (directionRef s) (obstacleIdRef s).
Definition setDirection (v : Direction) (s : State) : State :=
  mkState (snake s) (food s) v (gameOver s) (score s) (highScore s)
          (isPaused s) (gameStarted s) (speed s) (obstacles s)
          (directionRef s) (obstacleIdRef s).
Definition setGameOver (v : bool) (s : State) : State :=
  mkState (snake s) (food s) (direction s) v (score s) (highScore s)
          (isPaused s) (gameStarted s) (speed s) (obstacles s)
          (directionRef s) (obstacleIdRef s).
Definition setScore (v : Z) (s : State) : State :=
  mkState (snake s) (food s) (direction s) (gameOver s) v (highScore s)
          (isPaused s) (gameStarted s) (speed s) (obstacles s)
          (directionRef s) (obstacleIdRef s).
Definition setHighScore (v : Z) (s : State) : State :=
  mkState (snake s) (food s) (direction s) (gameOver s) (score s) v
          (isPaused s) (gameStarted s) (speed s) (obstacles s)
          (directionRef s) (obstacleIdRef s).
Definition setIsPaused (v : bool) (s : State) : State :=
  mkState (snake s) (food s) (direction s) (gameOver s) (score s) (highScore s)
          v (gameStarted s) (speed s) (obstacles s)
          (directionRef s) (obstacleIdRef s).
Definition setGameStarted (v : bool) (s : State) : State :=
  mkState (snake s) (food s) (direction s) (gameOver s) (score s) (highScore s)
          (isPaused s) v (speed s) (obstacles s)
          (directionRef s) (obstacleIdRef s).
Definition setSpeed (v : Z) (s : State) : State :=
  mkState (snake s) (food s) (direction s) (gameOver s) (score s) (highScore s)
          (isPaused s) (gameStarted s) v (obstacles s)
          (directionRef s) (obstacleIdRef s).
Definition setObstacles (v : list Obstacle) (s : State) : State :=
  mkState (snake s) (food s) (direction s) (gameOver s) (score s) (highScore s)
          (isPaused s) (gameStarted s) (speed s) v
          (directionRef s) (obstacleIdRef s).
Definition setDirectionRef (v : Direction) (s : State) : State :=
  mkState (snake s) (food s) (direction s) (gameOver s) (score s) (highScore s)
          (isPaused s) (gameStarted s) (speed s) (obstacles s)
          v (obstacleIdRef s).
Definition setObstacleIdRef (v : Z) (s : State) : State :=
  mkState (snake s) (food s) (direction s) (gameOver s) (score s) (highScore s)
          (isPaused s) (gameStarted s) (speed s) (obstacles s)
          (directionRef s) v.

(** ** The random oracle *)

Definition Rand (A : Type) : Type := list Q -> option (A * list Q).

Definition ret {A : Type} (a : A) : Rand A := fun tape => Some (a, tape).

Definition bind {A B : Type} (m : Rand A) (k : A -> Rand B) : Rand B :=
  fun tape =>
    match m tape with
    | Some (a, rest) => k a rest
    | None => None
    end.

Notation "v <- m ;; k" := (bind m (fun v => k))
  (at level 61, m at next level, right associativity).

(** ** Board model and placement generator *)

(** The bounds test written twice in the source, at lines 43-44 and
    (negated) at line 129. *)
Definition inBounds (p : Position) : bool :=
  (0 <=? x p) && (x p <? GRID_SIZE) && (0 <=? y p) && (y p <? GRID_SIZE).

(** [pos.x === q.x && pos.y === q.y], the comparison used by every [some]. *)
Definition samePos (p q : Position) : bool :=
  (x p =? x q) && (y p =? y q).

Definition getSnakeBufferZone (snakePositions : list Position) : list Position :=
  flat_map (fun pos =>
    flat_map (fun dx =>
      flat_map (fun dy =>
        let bufferPos := mkPosition (x pos + dx) (y pos + dy) in
        if (0 <=? x bufferPos) && (x bufferPos <? GRID_SIZE) &&
           (0 <=? y bufferPos) && (y bufferPos <? GRID_SIZE)
        then [bufferPos] else [])
      [-1; 0; 1])
    [-1; 0; 1])
  snakePositions.

(** [Math.floor(Math.random() * GRID_SIZE)] for the draw [r]. *)
Definition randomCoord (r : Q) : Z := Qfloor (r * inject_Z GRID_SIZE).

(** The [do ... while] loop: each round reads two draws, first the one for
    [x], then the one for [y], and repeats while the candidate is excluded. *)
Fixpoint generateRandomPosition (excludePositions : list Position)
    (tape : list Q) : option (Position * list Q) :=
  match tape with
  | rx :: ry :: rest =>
      let newPosition := mkPosition (randomCoord rx) (randomCoord ry) in
      if existsb (fun pos => samePos pos newPosition) excludePositions
      then generateRandomPosition excludePositions rest
      else Some (newPosition, rest)
  | _ => None
  end.

Definition logos : list Logo := [acmLogo; googleLogo].

(** The [for] loop of [generateObstacles]: [n] rounds remain, [i] is the loop
    counter, [nextId] the value of [obstacleIdRef.current]. *)
Fixpoint generateObstaclesLoop (n : nat) (i : Z)
    (excludePositions : list Position) (newObstacles : list Obstacle)
    (nextId : Z) : Rand (list Obstacle * Z) :=
  match n with
  | O => ret (newObstacles, nextId)
  | S n' =>
      pos <- generateRandomPosition
               (excludePositions ++ map position newObstacles) ;;
      generateObstaclesLoop n' (i + 1) excludePositions
        (newObstacles ++
           [mkObstacle pos
              (nth (Z.to_nat (i mod Z.of_nat (List.length logos))) logos acmLogo)
              nextId])
        (nextId + 1)
  end.

Definition generateObstacles (count : Z) (snakePositions : list Position)
    (foodPosition : Position) (nextId : Z) : Rand (list Obstacle * Z) :=
  let bufferZone := getSnakeBufferZone snakePositions in
  let excludePositions := snakePositions ++ bufferZone ++ [foodPosition] in
  generateObstaclesLoop (Z.to_nat count) 0 excludePositions [] nextId.

(** ** Session handling *)

Definition initGame (st : State) : Rand State :=
  let initialSnake := [mkPosition 10 10] in
  let st := setSnake initialSnake st in
  let st := setDirection RIGHT st in
  let st := setDirectionRef RIGHT st in
  let st := setGameOver false st in
  let st := setScore 0 st in
  let st := setSpeed INITIAL_SPEED st in
  let bufferZone := getSnakeBufferZone initialSnake in
  newFood <- generateRandomPosition (initialSnake ++ bufferZone) ;;
  let st := setFood newFood st in
  r <- generateObstacles 3 initialSnake newFood (obstacleIdRef st) ;;
  let '(newObstacles, nextId) := r in
  ret (setObstacles newObstacles (setObstacleIdRef nextId st)).

Definition startGame (st : State) : Rand State :=
  initGame (setGameStarted true st).

(** The EXIT button of the game-over overlay. *)
Definition exitGame (st : State) : State :=
  setGameStarted false (setGameOver false st).

(** ** Tick engine *)

(** The [switch] on [currentDirection], applied to a copy of the head. *)
Definition moveHead (currentDirection : Direction) (head : Position) : Position :=
  match currentDirection with
  | UP => mkPosition (x head) (y head - 1)
  | DOWN => mkPosition (x head) (y head + 1)
  | LEFT => mkPosition (x head - 1) (y head)
  | RIGHT => mkPosition (x head + 1) (y head)
  end.

(** The three statements every collision branch of [moveSnake] repeats:
    [setGameOver(true); if (score > highScore) setHighScore(score);]. *)
Definition endGame (st : State) : State :=
  let st := setGameOver true st in
  if score st >? highScore st then setHighScore (score st) st else st.

(** One call of [moveSnake].  On an empty [prevSnake] the JavaScript code
    builds a head with undefined coordinates, fails every comparison, pushes
    that head and pops it again: the state is left as it was. *)
Definition moveSnake (st : State) : Rand State :=
  if gameOver st || isPaused st || negb (gameStarted st) then ret st
  else
    let prevSnake := snake st in
    match prevSnake with
    | [] => ret st
    | first :: _ =>
        let head := moveHead (directionRef st) first in
        if (x head <? 0) || (x head >=? GRID_SIZE) ||
           (y head <? 0) || (y head >=? GRID_SIZE)
        then ret (endGame st)
        else if existsb (fun segment => samePos segment head) prevSnake
        then ret (endGame st)
        else if existsb (fun obs => samePos (position obs) head) (obstacles st)
        then ret (endGame st)
        else
          let newSnake := head :: prevSnake in
          if (x head =? x (food st)) && (y head =? y (food st)) then
            let st1 := setScore (score st + 10) st in
            let st2 :=
              setSpeed (Z.max MIN_SPEED (speed st1 - SPEED_INCREASE)) st1 in
            let bufferZone := getSnakeBufferZone newSnake in
            newFood <- generateRandomPosition (newSnake ++ bufferZone) ;;
            let st3 := setFood newFood st2 in
            let obstacleCount := Z.min (3 + (score st + 10) / 50) 8 in
            r <- generateObstacles obstacleCount newSnake newFood
                   (obstacleIdRef st3) ;;
            let '(newObstacles, nextId) := r in
            ret (setSnake newSnake
                   (setObstacles newObstacles (setObstacleIdRef nextId st3)))
          else ret (setSnake (removelast newSnake) st)
    end.

(** ** Input controller *)

Definition keyIn (key : string) (cases : list string) : bool :=
  existsb (String.eqb key) cases.

Definition dirEqb (a b : Direction) : bool :=
  match a, b with
  | UP, UP | DOWN, DOWN | LEFT, LEFT | RIGHT, RIGHT => true
  | _, _ => false
  end.

Definition handleKeyPress (key : string) (st : State) : Rand State :=
  if negb (gameStarted st) then ret st
  else if String.eqb key " " then
    if gameOver st then initGame st
    else ret (setIsPaused (negb (isPaused st)) st)
  else if gameOver st || isPaused st then ret st
  else
    let currentDir := directionRef st in
    let newDirection : option Direction :=
      if keyIn key ["ArrowUp"; "w"; "W"]%string then
        if negb (dirEqb currentDir DOWN) then Some UP else None
      else if keyIn key ["ArrowDown"; "s"; "S"]%string then
        if negb (dirEqb currentDir UP) then Some DOWN else None
      else if keyIn key ["ArrowLeft"; "a"; "A"]%string then
        if negb (dirEqb currentDir RIGHT) then Some LEFT else None
      else if keyIn key ["ArrowRight"; "d"; "D"]%string then
        if negb (dirEqb currentDir LEFT) then Some RIGHT else None
      else None in
    match newDirection with
    | Some d => ret (setDirection d (setDirectionRef d st))
    | None => ret st
    end.

(** ** Events and reachable states *)

(** What the host can deliver: the interval callback, a [keydown] event, and a
    click on one of the three buttons.  A button exists only while its overlay
    is rendered: START GAME while [!gameStarted], PLAY AGAIN and EXIT while
    [gameOver]. *)
Inductive Event : Type :=
  | Tick
  | KeyDown (key : string)
  | ClickStart
  | ClickPlayAgain
  | ClickExit.

Definition step (e : Event) (st : State) : Rand State :=
  match e with
  | Tick => moveSnake st
  | KeyDown key => handleKeyPress key st
  | ClickStart => if negb (gameStarted st) then startGame st else ret st
  | ClickPlayAgain => if gameOver st then initGame st else ret st
  | ClickExit => if gameOver st then ret (exitGame st) else ret st
  end.

Inductive reachable : State -> Prop :=
  | reachable_mount : reachable initialState
  | reachable_step : forall e st tape st' tape',
      reachable st -> step e st tape = Some (st', tape') -> reachable st'.

(** ** Vocabulary of the specification *)

(** The session states of the tick engine. *)
Definition Running (st : State) : bool :=
  gameStarted st && negb (gameOver st) && negb (isPaused st).

Definition Over (st : State) : bool := gameOver st.

(** The cell the next tick computes as the new head. *)
Definition newHead (st : State) : option Position :=
  match snake st with
  | [] => None
  | first :: _ => Some (moveHead (directionRef st) first)
  end.

(** The three collision conditions of a tick, as the specification lists
    them. *)
Definition outOfBounds (h : Position) : bool := negb (inBounds h).
Definition hitsSnake (st : State) (h : Position) : bool :=
  existsb (fun segment => samePos segment h) (snake st).
Definition hitsObstacle (st : State) (h : Position) : bool :=
  existsb (fun obs => samePos (position obs) h) (obstacles st).
Definition collides (st : State) (h : Position) : bool :=
  outOfBounds h || hitsSnake st h || hitsObstacle st h.

Definition opposite (d : Direction) : Direction :=
  match d with
  | UP => DOWN
  | DOWN => UP
  | LEFT => RIGHT
  | RIGHT => LEFT
  end.

(** The heading a movement key asks for, before the reversal check. *)
Definition keyHeading (key : string) : option Direction :=
  if keyIn key ["ArrowUp"; "w"; "W"]%string then Some UP
  else if keyIn key ["ArrowDown"; "s"; "S"]%string then Some DOWN
  else if keyIn key ["ArrowLeft"; "a"; "A"]%string then Some LEFT
  else if keyIn key ["ArrowRight"; "d"; "D"]%string then Some RIGHT
  else None.

(** An event that starts a fresh session by running [initGame]. *)
Definition startsSession (e : Event) (st : State) : bool :=
  match e with
  | ClickStart => negb (gameStarted st)
  | ClickPlayAgain => gameOver st
  | KeyDown key => gameStarted st && String.eqb key " " && gameOver st
  | _ => false
  end.

(** A tick on which the snake eats: it is taken in the Running state, the new
    head collides with nothing and lies on the food cell. *)
Definition eats (st : State) : bool :=
  Running st &&
  match newHead st with
  | Some h => negb (collides st h) && samePos h (food st)
  | None => false
  end.

(** The food branch of [moveSnake], for the new head [h]. *)
Definition growAndReplace (st : State) (h : Position) : Rand State :=
  let newSnake := h :: snake st in
  newFood <- generateRandomPosition (newSnake ++ getSnakeBufferZone newSnake) ;;
  r <- generateObstacles (Z.min (3 + (score st + 10) / 50) 8) newSnake newFood
         (obstacleIdRef st) ;;
  ret (setSnake newSnake
         (setObstacles (fst r)
            (setObstacleIdRef (snd r)
               (setFood newFood
                  (setSpeed (Z.max MIN_SPEED (speed st - SPEED_INCREASE))
                     (setScore (score st + 10) st)))))).

(** The 225 cells of the board, column by column. *)
Definition axis : list Z := map Z.of_nat (seq 0 (Z.to_nat GRID_SIZE)).

Definition board : list Position :=
  flat_map (fun cx => map (fun cy => mkPosition cx cy) axis) axis.

(** An exclusion list covers the board when every cell occurs in it. *)
Definition coversBoard (excludePositions : list Position) : bool :=
  forallb (fun c => existsb (fun pos => samePos pos c) excludePositions) board.

(** No two positions of the list are the same cell. *)
Fixpoint distinct (l : list Position) : bool :=
  match l with
  | [] => true
  | a :: rest =>
      negb (existsb (fun pos => samePos pos a) rest) && distinct rest
  end.

(** An unbounded supply of draws, and the tape of its first [n] draws. *)
Definition Draws : Type := nat -> Q.

Definition prefix (s : Draws) (n : nat) : list Q := map s (seq 0 n).

(** [Math.random()] returns a number in [0,1). *)
Definition validDraw (r : Q) : Prop := (0 <= r)%Q /\ (r < 1)%Q.

(** The candidate cell of round [k] of the rejection loop. *)
Definition drawnCell (s : Draws) (k : nat) : Position :=
  mkPosition (randomCoord (s (2 * k)%nat)) (randomCoord (s (2 * k + 1)%nat)).

(** What uniform drawing gives with probability one and a shallow embedding
    has to assume of the oracle: no cell of the board is left out for ever. *)
Definition everyCellDrawn (s : Draws) : Prop :=
  forall c, inBounds c = true -> exists k, drawnCell s k = c.

(** The supply [s] once the loop has used up [r] rounds of it. *)
Definition shiftRounds (r : nat) (s : Draws) : Draws :=
  fun i => s (2 * r + i)%nat.

(** The same, for a run of several placements: whatever has been drawn so
    far, every cell of the board is still to come. *)
Definition drawnForever (s : Draws) : Prop :=
  forall r c, inBounds c = true -> exists k, drawnCell (shiftRounds r s) k = c.

(** The computation [m], fed from the supply [s], returns after finitely many
    rounds with a value satisfying [P], leaving the rest of the supply. *)
Definition returnsOn {A : Type} (m : Rand A) (s : Draws) (P : A -> Prop)
    : Prop :=
  exists r a, P a /\
    forall n, m (prefix s (2 * r + n)) = Some (a, prefix (shiftRounds r s) n).

(** A supply of draws that visits the board cell by cell, again and again. *)
Definition cycleDraws : Draws :=
  fun i =>
    let k := Z.of_nat (Nat.div i 2) in
    if Nat.even i then (k mod GRID_SIZE) # 15
    else ((k / GRID_SIZE) mod GRID_SIZE) # 15.

(** The state right after a placement event, as the specification wants it. *)
Definition placed (st : State) : Prop :=
  ~ In (food st) (snake st) /\
  ~ In (food st) (getSnakeBufferZone (snake st)) /\
  ~ In (food st) (map position (obstacles st)) /\
  NoDup (map position (obstacles st)) /\
  forall o, In o (obstacles st) ->
    ~ In (position o) (snake st) /\
    ~ In (position o) (getSnakeBufferZone (snake st)) /\
    position o <> food st.

Definition isTick (e : Event) : bool :=
  match e with Tick => true | _ => false end.

(** A session in progress, for the examples below. *)
Definition sessionWith (sn : list Position) (fd : Position) (d : Direction)
    (sc hi : Z) (obs : list Obstacle) : State :=
  {| snake := sn; food := fd; direction := d; gameOver := false;
     score := sc; highScore := hi; isPaused := false; gameStarted := true;
     speed := INITIAL_SPEED; obstacles := obs; directionRef := d;
     obstacleIdRef := Z.of_nat (List.length obs) |}.

Definition threeObstacles : list Obstacle :=
  [mkObstacle (mkPosition 0 0) acmLogo 0;
   mkObstacle (mkPosition 0 1) googleLogo 1;
   mkObstacle (mkPosition 0 2) acmLogo 2].

(** Draws that place the food at (12,10) and obstacles at (0,0), (0,1) and
    (0,2), after one rejected candidate, (10,10). *)
Definition demoTape : list Q :=
  [10 # 15; 10 # 15; 12 # 15; 10 # 15;
   0 # 15; 0 # 15; 0 # 15; 1 # 15; 0 # 15; 2 # 15]%Q.

(** Draws that, after a rejected candidate (11,10), place the food at (3,3)
    and obstacles at (0,0), (0,1) and (0,2). *)
Definition eatTape : list Q :=
  [11 # 15; 10 # 15; 3 # 15; 3 # 15;
   0 # 15; 0 # 15; 0 # 15; 1 # 15; 0 # 15; 2 # 15]%Q.

(** What an event that neither starts a session nor eats leaves alone. *)
Definition keepsSession (st st' : State) : Prop :=
  score st' = score st /\
  speed st' = speed st /\
  food st' = food st /\
  obstacles st' = obstacles st /\
  highScore st <= highScore st' /\
  (gameStarted st' = true -> gameStarted st = true).

(** The facts every reachable state satisfies. *)
Definition goodState (st : State) : Prop :=
  (exists k, 0 <= k /\ score st = 10 * k) /\
  MIN_SPEED <= speed st <= INITIAL_SPEED /\
  (gameStarted st = true ->
   Z.of_nat (List.length (obstacles st)) = Z.min (3 + score st / 50) 8).

(** The state [st] after the events [es], each given the draws it may use;
    an event whose draws run out leaves the run where it is. *)
Fixpoint run (es : list (Event * list Q)) (st : State) : State :=
  match es with
  | [] => st
  | (e, tape) :: es' =>
      match step e st tape with
      | Some (st', _) => run es' st'
      | None => st
      end
  end.

(** A short game: START GAME, with the food placed at (12,10), then a tick to
    (11,10). *)
Definition demoMoved : State :=
  run [(ClickStart, demoTape); (Tick, [])] initialState.

(** ** Rendering conditions and further vocabulary *)

(** The conditions under which the component renders its overlays: the start
    screen, the pause overlay, the game-over overlay and, inside the latter,
    the NEW HIGH SCORE line. *)
Definition showStartScreen (st : State) : bool := negb (gameStarted st).

Definition showPauseOverlay (st : State) : bool :=
  isPaused st && negb (gameOver st) && gameStarted st.

Definition showGameOverOverlay (st : State) : bool := gameOver st.

Definition showNewHighScore (st : State) : bool :=
  gameOver st && ((score st >=? highScore st) && (score st >? 0)).

(** Two cells one unit step apart. *)
Definition adjacent (a b : Position) : Prop :=
  Z.abs (x a - x b) + Z.abs (y a - y b) = 1.

(** Every segment is one step away from the next. *)
Fixpoint connected (l : list Position) : Prop :=
  match l with
  | a :: (b :: _) as tl => adjacent a b /\ connected tl
  | _ => True
  end.

(** What one event can do to the state, branch by branch of the handlers. *)
Inductive effect (st : State) (tape : list Q) : State -> list Q -> Prop :=
  | effect_none : effect st tape st tape
  | effect_start : forall st' tape',
      gameStarted st = false ->
      initGame (setGameStarted true st) tape = Some (st', tape') ->
      effect st tape st' tape'
  | effect_restart : forall st' tape',
      gameOver st = true ->
      initGame st tape = Some (st', tape') ->
      effect st tape st' tape'
  | effect_eat : forall h st' tape',
      Running st = true -> newHead st = Some h -> collides st h = false ->
      h = food st ->
      growAndReplace st h tape = Some (st', tape') ->
      effect st tape st' tape'
  | effect_die : forall h,
      Running st = true -> newHead st = Some h -> collides st h = true ->
      effect st tape (endGame st) tape
  | effect_move : forall h,
      Running st = true -> newHead st = Some h -> collides st h = false ->
      h <> food st ->
      effect st tape (setSnake (removelast (h :: snake st)) st) tape
  | effect_pause :
      gameStarted st = true -> gameOver st = false ->
      effect st tape (setIsPaused (negb (isPaused st)) st) tape
  | effect_turn : forall d,
      Running st = true -> d <> opposite (directionRef st) ->
      effect st tape (setDirection d (setDirectionRef d st)) tape
  | effect_exit :
      gameOver st = true -> effect st tape (exitGame st) tape.

(** The short game right after START GAME. *)
Definition demoStarted : State := run [(ClickStart, demoTape)] initialState.

(** One row of the board, from the left and from the right, and a snake
    that winds through rows 13, 10, 7, 4 and 1, its head at (13,13). *)
Definition rowFromLeft (r : Z) : list Position :=
  map (fun c => mkPosition c r) axis.

Definition rowFromRight (r : Z) : list Position := rev (rowFromLeft r).

Definition windingSnake : list Position :=
  tl (rowFromRight 13) ++ [mkPosition 0 12; mkPosition 0 11] ++
  rowFromLeft 10 ++ [mkPosition 14 9; mkPosition 14 8] ++
  rowFromRight 7 ++ [mkPosition 0 6; mkPosition 0 5] ++
  rowFromLeft 4 ++ [mkPosition 14 3; mkPosition 14 2] ++
  rowFromRight 1.

(** The short game continued: the snake eats at (12,10), moves on to (14,10)
    and runs into the right wall. *)
Definition demoOver : State :=
  run [(Tick, eatTape); (Tick, []); (Tick, []); (Tick, [])] demoMoved.

(** Every event of the run comes with draws in [0,1). *)
Definition validRun (es : list (Event * list Q)) : Prop :=
  Forall (fun et => Forall validDraw (snd et)) es.

(** Round [k] of [s] is the first whose candidate is not excluded. *)
Definition firstFreeRound (excl : list Position) (s : Draws) (k : nat) : Prop :=
  ~ In (drawnCell s k) excl /\
  forall j, (j < k)%nat -> In (drawnCell s j) excl.

(** * Properties *)

(** ** Cells and membership *)

Lemma samePos_eq : forall p q, samePos p q = true <-> p = q.
Proof.
  intros [px py] [qx qy]; unfold samePos; simpl.
  rewrite andb_true_iff, !Z.eqb_eq.
  split; [intros [-> ->]; reflexivity | intros E; inversion E; auto].
Qed.

Lemma samePos_refl : forall p, samePos p p = true.
Proof. intros p; apply samePos_eq; reflexivity. Qed.

Lemma samePos_neq : forall p q, samePos p q = false <-> p <> q.
Proof.
  intros p q; split.
  - intros E H; apply samePos_eq in H; congruence.
  - intros H; destruct (samePos p q) eqn:E; [|reflexivity].
    apply samePos_eq in E; contradiction.
Qed.

Lemma some_In : forall (l : list Position) q,
  existsb (fun pos => samePos pos q) l = true <-> In q l.
Proof.
  intros l q; rewrite existsb_exists; split.
  - intros [p [Hin E]]; apply samePos_eq in E; subst; assumption.
  - intros Hin; exists q; split; [assumption | apply samePos_refl].
Qed.

Lemma some_not_In : forall (l : list Position) q,
  existsb (fun pos => samePos pos q) l = false <-> ~ In q l.
Proof.
  intros l q; rewrite <- some_In.
  destruct (existsb _ l); split; intros; congruence.
Qed.

Lemma some_obstacle_In : forall (l : list Obstacle) q,
  existsb (fun obs => samePos (position obs) q) l = true <->
  In q (map position l).
Proof.
  intros l q; induction l as [|o l IH]; simpl.
  - split; [discriminate | tauto].
  - rewrite orb_true_iff, IH, samePos_eq; tauto.
Qed.

Lemma Position_eq_dec : forall p q : Position, {p = q} + {p <> q}.
Proof.
  intros p q; destruct (samePos p q) eqn:E.
  - left; apply samePos_eq; assumption.
  - right; apply samePos_neq; assumption.
Qed.

(** The wall test of [moveSnake] is the negation of the bounds test. *)
Lemma wall_test_outOfBounds : forall h,
  (x h <? 0) || (x h >=? GRID_SIZE) || (y h <? 0) || (y h >=? GRID_SIZE)
  = outOfBounds h.
Proof.
  intros h; unfold outOfBounds, inBounds, GRID_SIZE.
  destruct (x h <? 0) eqn:A, (x h >=? 15) eqn:B,
           (y h <? 0) eqn:C, (y h >=? 15) eqn:D,
           (0 <=? x h) eqn:A', (x h <? 15) eqn:B',
           (0 <=? y h) eqn:C', (y h <? 15) eqn:D'; simpl; try reflexivity; lia.
Qed.

(** ** One tick, case by case *)

Lemma moveSnake_not_running : forall st tape,
  Running st = false -> moveSnake st tape = Some (st, tape).
Proof.
  intros st tape; unfold Running, moveSnake.
  destruct (gameOver st), (isPaused st), (gameStarted st); simpl;
    intros; try discriminate; reflexivity.
Qed.

Lemma moveSnake_empty : forall st tape,
  newHead st = None -> moveSnake st tape = Some (st, tape).
Proof.
  intros st tape; unfold newHead, moveSnake.
  destruct (snake st); [|discriminate].
  intros _; destruct (gameOver st || isPaused st || negb (gameStarted st));
    reflexivity.
Qed.

Lemma moveSnake_running : forall st h tape,
  Running st = true -> newHead st = Some h ->
  moveSnake st tape =
    if collides st h then Some (endGame st, tape)
    else if samePos h (food st) then growAndReplace st h tape
    else Some (setSnake (removelast (h :: snake st)) st, tape).
Proof.
  intros st h tape HR HN.
  unfold Running in HR. apply andb_true_iff in HR as [HR HP].
  apply andb_true_iff in HR as [HS HO].
  unfold moveSnake, newHead in *.
  rewrite HS; destruct (gameOver st); [discriminate|].
  destruct (isPaused st); [discriminate|]. simpl.
  destruct (snake st) as [|first tl] eqn:Esn; [discriminate|].
  injection HN as <-.
  rewrite wall_test_outOfBounds.
  unfold collides, hitsSnake, hitsObstacle. rewrite Esn.
  set (h := moveHead (directionRef st) first).
  destruct (outOfBounds h); [reflexivity|].
  destruct (existsb (fun segment => samePos segment h) (first :: tl));
    [reflexivity|].
  destruct (existsb (fun obs => samePos (position obs) h) (obstacles st));
    [reflexivity|]. simpl orb. cbv iota.
  fold (samePos h (food st)).
  destruct (samePos h (food st)); [|reflexivity].
  unfold growAndReplace, bind. rewrite Esn.
  destruct (generateRandomPosition _ tape) as [[nf rest]|]; [|reflexivity].
  simpl.
  destruct (generateObstacles _ _ _ _ rest) as [[[obs nid] rest']|];
    reflexivity.
Qed.

Lemma endGame_fields : forall st,
  gameOver (endGame st) = true /\
  snake (endGame st) = snake st /\
  food (endGame st) = food st /\
  obstacles (endGame st) = obstacles st /\
  score (endGame st) = score st /\
  speed (endGame st) = speed st /\
  highScore (endGame st) =
    (if score st >? highScore st then score st else highScore st).
Proof.
  intros st; unfold endGame; simpl.
  destruct (score st >? highScore st); simpl; repeat split; reflexivity.
Qed.

Lemma moveSnake_collision : forall st h tape,
  Running st = true ->
  newHead st = Some h ->
  outOfBounds h = true \/ In h (snake st) \/ In h (map position (obstacles st)) ->
  moveSnake st tape = Some (endGame st, tape).
Proof.
  intros st h tape HR HN HC.
  assert (Hc : collides st h = true).
  { unfold collides, hitsSnake, hitsObstacle.
    destruct HC as [H | [H | H]].
    - rewrite H; reflexivity.
    - apply some_In in H; rewrite H; apply orb_true_iff; left;
        apply orb_true_r.
    - apply some_obstacle_In in H; rewrite H; apply orb_true_r. }
  rewrite (moveSnake_running st h tape HR HN), Hc. reflexivity.
Qed.

(** C1. A tick taken in the Running state whose new head is out of bounds, on
    a snake cell or on an obstacle cell ends the session: the state becomes
    Over, the snake, the food cell, the obstacles, the score and the speed are
    those of before the tick, and [highScore] becomes [score] exactly when
    [score] exceeds it, staying as it was otherwise. *)
Theorem collision_tick_frame : forall st h tape,
  Running st = true ->
  newHead st = Some h ->
  outOfBounds h = true \/ In h (snake st) \/ In h (map position (obstacles st)) ->
  exists st',
    moveSnake st tape = Some (st', tape) /\
    Over st' = true /\
    snake st' = snake st /\
    food st' = food st /\
    obstacles st' = obstacles st /\
    score st' = score st /\
    speed st' = speed st /\
    (score st > highScore st -> highScore st' = score st) /\
    (score st <= highScore st -> highScore st' = highScore st).
Proof.
  intros st h tape HR HN HC.
  exists (endGame st).
  split; [exact (moveSnake_collision st h tape HR HN HC)|].
  destruct (endGame_fields st) as (Ho & Hs & Hf & Hob & Hsc & Hsp & Hhi).
  unfold Over; repeat split; try assumption.
  - intros Hgt; rewrite Hhi.
    destruct (score st >? highScore st) eqn:E; [reflexivity | lia].
  - intros Hle; rewrite Hhi.
    destruct (score st >? highScore st) eqn:E; [lia | reflexivity].
Qed.

Lemma collision_tick_frame_witness :
  exists st',
    moveSnake (sessionWith [mkPosition 14 10] (mkPosition 3 3) RIGHT 20 10
                 threeObstacles) demoTape = Some (st', demoTape) /\
    Over st' = true /\ snake st' = [mkPosition 14 10] /\ highScore st' = 20.
Proof.
  destruct (collision_tick_frame
              (sessionWith [mkPosition 14 10] (mkPosition 3 3) RIGHT 20 10
                 threeObstacles) (mkPosition 15 10) demoTape)
    as (st' & Hm & Ho & Hs & _ & _ & _ & _ & Hhi & _).
  - reflexivity.
  - reflexivity.
  - left; reflexivity.
  - exists st'; repeat split; try assumption.
    apply Hhi; simpl; lia.
Defined.

(** C4. The self-collision test looks at every cell of the snake as it is
    before the move, the tail included: a Running tick whose new head is any
    current segment, and in particular the last one, ends the session and
    leaves the snake as it was, although a move without growth would have
    vacated the tail cell. *)
Theorem tail_cell_is_a_collision : forall st h tape,
  Running st = true ->
  newHead st = Some h ->
  (In h (snake st) ->
     exists st', moveSnake st tape = Some (st', tape) /\
                 Over st' = true /\ snake st' = snake st) /\
  (forall front, snake st = front ++ [h] ->
     exists st', moveSnake st tape = Some (st', tape) /\
                 Over st' = true /\ snake st' = snake st).
Proof.
  intros st h tape HR HN.
  assert (A : In h (snake st) ->
     exists st', moveSnake st tape = Some (st', tape) /\
                 Over st' = true /\ snake st' = snake st).
  { intros Hin. exists (endGame st).
    split; [apply (moveSnake_collision st h tape HR HN); auto|].
    destruct (endGame_fields st) as (Ho & Hs & _). auto. }
  split; [exact A|].
  intros front Hsn. apply A. rewrite Hsn.
  apply in_or_app; right; left; reflexivity.
Qed.

Lemma tail_cell_is_a_collision_witness :
  exists st',
    moveSnake (sessionWith [mkPosition 5 5; mkPosition 5 6; mkPosition 6 6;
                            mkPosition 6 5] (mkPosition 3 3) RIGHT 30 0
                 threeObstacles) demoTape = Some (st', demoTape) /\
    Over st' = true /\
    snake st' = [mkPosition 5 5; mkPosition 5 6; mkPosition 6 6;
                 mkPosition 6 5].
Proof.
  refine (proj2 (tail_cell_is_a_collision
            (sessionWith [mkPosition 5 5; mkPosition 5 6; mkPosition 6 6;
                          mkPosition 6 5] (mkPosition 3 3) RIGHT 30 0
               threeObstacles) (mkPosition 6 5) demoTape _ _)
            [mkPosition 5 5; mkPosition 5 6; mkPosition 6 6] _).
  - reflexivity.
  - reflexivity.
  - reflexivity.
Defined.

Lemma length_removelast_cons : forall (h : Position) l,
  List.length (removelast (h :: l)) = List.length l.
Proof.
  intros h l; revert h; induction l as [|a l IH]; intros h; [reflexivity|].
  change (removelast (h :: a :: l)) with (h :: removelast (a :: l)).
  cbn [List.length]; f_equal; apply IH.
Qed.

Lemma growAndReplace_snake : forall st h tape st' tape',
  growAndReplace st h tape = Some (st', tape') ->
  snake st' = h :: snake st /\ gameOver st' = gameOver st.
Proof.
  intros st h tape st' tape'; unfold growAndReplace, bind, ret.
  destruct (generateRandomPosition _ tape) as [[nf rest]|]; [|discriminate].
  destruct (generateObstacles _ _ _ _ rest) as [[r rest']|]; [|discriminate].
  intros E; injection E as <- _; split; reflexivity.
Qed.

(** C3. A tick taken in the Running state that does not end the session
    returns a snake one cell longer when the new head is the food cell and a
    snake of the same length otherwise; the length never grows by more than
    one and never shrinks. *)
Theorem tick_length : forall st tape st' tape',
  Running st = true ->
  moveSnake st tape = Some (st', tape') ->
  Over st' = false ->
  (newHead st = Some (food st) ->
     List.length (snake st') = S (List.length (snake st))) /\
  (newHead st <> Some (food st) ->
     List.length (snake st') = List.length (snake st)) /\
  (List.length (snake st) <= List.length (snake st') <=
     S (List.length (snake st)))%nat.
Proof.
  intros st tape st' tape' HR HM HO. unfold Over in HO.
  destruct (newHead st) as [h|] eqn:HN.
  - rewrite (moveSnake_running st h tape HR HN) in HM.
    destruct (collides st h) eqn:Hc.
    { injection HM as <- _.
      destruct (endGame_fields st) as [Hg _]; congruence. }
    destruct (samePos h (food st)) eqn:Hf.
    + apply samePos_eq in Hf.
      apply growAndReplace_snake in HM as [Hs _]. rewrite Hs; simpl.
      repeat split; try lia. intros Hne; subst; congruence.
    + apply samePos_neq in Hf.
      pose proof (length_removelast_cons h (snake st)) as HL.
      set (cut := removelast (h :: snake st)) in *.
      injection HM as <- _.
      change (snake (setSnake cut st)) with cut. rewrite HL.
      repeat split; try lia. intros E; congruence.
  - rewrite (moveSnake_empty st tape HN) in HM. injection HM as <- _.
    repeat split; try lia. discriminate.
Qed.

Lemma tick_length_witness :
  exists st' tape',
    moveSnake (sessionWith [mkPosition 11 10; mkPosition 10 10]
                 (mkPosition 12 10) RIGHT 0 0 threeObstacles) eatTape
      = Some (st', tape') /\
    List.length (snake st') = 3%nat.
Proof.
  destruct (moveSnake (sessionWith [mkPosition 11 10; mkPosition 10 10]
                 (mkPosition 12 10) RIGHT 0 0 threeObstacles) eatTape)
    as [[st' tape']|] eqn:E; [|vm_compute in E; discriminate E].
  exists st', tape'; split; [reflexivity|].
  refine (proj1 (tick_length _ eatTape st' tape' _ E _) _).
  - reflexivity.
  - vm_compute in E. injection E as <- _. reflexivity.
  - reflexivity.
Defined.

(** ** The placement generator *)

Lemma randomCoord_range : forall r,
  validDraw r -> 0 <= randomCoord r < GRID_SIZE.
Proof.
  intros [a b] [Hlo Hhi].
  unfold Qle, Qlt in *; simpl in *.
  unfold randomCoord, GRID_SIZE, Qfloor, Qmult, inject_Z; simpl Qnum; simpl Qden.
  rewrite Pos.mul_1_r.
  split.
  - apply Z.div_pos; lia.
  - apply Z.div_lt_upper_bound; lia.
Qed.

Lemma inBounds_range : forall c,
  inBounds c = true <-> (0 <= x c < GRID_SIZE /\ 0 <= y c < GRID_SIZE).
Proof.
  intros c; unfold inBounds.
  rewrite !andb_true_iff, !Z.leb_le, !Z.ltb_lt. tauto.
Qed.

(** Whatever the rejection loop returns is not excluded, and the draws it
    leaves are a suffix of the tape. *)
Lemma generateRandomPosition_not_excluded : forall excl tape p rest,
  generateRandomPosition excl tape = Some (p, rest) ->
  ~ In p excl /\ exists used, tape = used ++ rest.
Proof.
  intros excl; fix IH 1; intros tape p rest.
  destruct tape as [|rx [|ry tl]]; try discriminate.
  cbn [generateRandomPosition].
  destruct (existsb _ excl) eqn:E.
  - intros H; destruct (IH tl p rest H) as [Hn [used Hu]].
    split; [assumption|]. exists (rx :: ry :: used); rewrite Hu; reflexivity.
  - intros H; injection H as <- <-. split.
    + apply some_not_In; assumption.
    + exists [rx; ry]; reflexivity.
Qed.

Lemma generateRandomPosition_inBounds : forall excl tape p rest,
  Forall validDraw tape ->
  generateRandomPosition excl tape = Some (p, rest) ->
  inBounds p = true /\ Forall validDraw rest.
Proof.
  intros excl; fix IH 1; intros tape p rest HV.
  destruct tape as [|rx [|ry tl]]; try discriminate.
  cbn [generateRandomPosition].
  inversion HV as [|? ? Hx HV']; subst.
  inversion HV' as [|? ? Hy HV'']; subst.
  destruct (existsb _ excl) eqn:E.
  - intros H; exact (IH tl p rest HV'' H).
  - intros H; injection H as <- <-. split; [|assumption].
    apply inBounds_range; simpl.
    split; apply randomCoord_range; assumption.
Qed.

Lemma axis_range : forall z, In z axis <-> 0 <= z < GRID_SIZE.
Proof.
  intros z; unfold axis, GRID_SIZE; rewrite in_map_iff; split.
  - intros [n [<- Hn]]; apply in_seq in Hn; simpl in Hn; lia.
  - intros Hz; exists (Z.to_nat z); split; [lia|].
    apply in_seq; simpl; lia.
Qed.

Lemma board_inBounds : forall c, In c board <-> inBounds c = true.
Proof.
  intros c; rewrite inBounds_range, <- !axis_range.
  unfold board; rewrite in_flat_map; split.
  - intros [cx [Hx Hc]]; apply in_map_iff in Hc as [cy [<- Hy]]; auto.
  - intros [Hx Hy]; exists (x c); split; [assumption|].
    apply in_map_iff; exists (y c); split; [destruct c; reflexivity|assumption].
Qed.

Lemma board_size : List.length board = 225%nat.
Proof. reflexivity. Qed.

Lemma coversBoard_true : forall excl,
  coversBoard excl = true <-> (forall c, inBounds c = true -> In c excl).
Proof.
  intros excl; unfold coversBoard; rewrite forallb_forall; split.
  - intros H c Hc; apply some_In, H, board_inBounds; assumption.
  - intros H c Hc; apply some_In, H, board_inBounds; assumption.
Qed.

Lemma coversBoard_false : forall excl,
  coversBoard excl = false ->
  exists c, inBounds c = true /\ ~ In c excl.
Proof.
  intros excl; unfold coversBoard.
  assert (G : forall l, forallb (fun c => existsb (fun pos => samePos pos c) excl) l
                        = false -> exists c, In c l /\ ~ In c excl).
  { induction l as [|c l IH]; simpl; [discriminate|].
    destruct (existsb (fun pos => samePos pos c) excl) eqn:E; simpl.
    - intros H; destruct (IH H) as [c' [Hin Hn]]; exists c'; auto.
    - intros _; exists c; split; [auto | apply some_not_In; assumption]. }
  intros H; destruct (G board H) as [c [Hin Hn]].
  exists c; split; [apply board_inBounds|]; assumption.
Qed.

Lemma distinct_NoDup : forall l : list Position,
  distinct l = true -> NoDup l.
Proof.
  induction l as [|a l IH]; simpl; [constructor|].
  rewrite andb_true_iff, negb_true_iff, some_not_In.
  intros [Ha Hl]; constructor; auto.
Qed.

Lemma board_NoDup : NoDup board.
Proof. apply distinct_NoDup; vm_compute; reflexivity. Qed.

(** Fewer than 225 excluded positions cannot cover the board. *)
Lemma short_list_leaves_a_cell : forall excl,
  (List.length excl < 225)%nat -> coversBoard excl = false.
Proof.
  intros excl Hlen. destruct (coversBoard excl) eqn:E; [|reflexivity].
  exfalso. rewrite coversBoard_true in E.
  assert (Hincl : incl board excl).
  { intros c Hc; apply E, board_inBounds; assumption. }
  pose proof (NoDup_incl_length board_NoDup Hincl) as Hle.
  rewrite board_size in Hle; lia.
Qed.

(** ** Termination of the rejection loop *)

Lemma prefix_two_more : forall (s : Draws) n,
  prefix s (S (S n)) = s 0%nat :: s 1%nat :: prefix (fun i => s (S (S i))) n.
Proof.
  intros s n; unfold prefix.
  cbn [seq map]. do 2 f_equal.
  rewrite <- seq_shift, <- seq_shift, !map_map. reflexivity.
Qed.

Lemma drawnCell_shift : forall (s : Draws) k,
  drawnCell (fun i => s (S (S i))) k = drawnCell s (S k).
Proof.
  intros s k; unfold drawnCell.
  replace (2 * S k)%nat with (S (S (2 * k))) by lia.
  replace (S (S (2 * k)) + 1)%nat with (S (S (2 * k + 1))) by lia.
  reflexivity.
Qed.

(** The loop stops at the first round whose candidate is not excluded. *)
Lemma generateRandomPosition_stops : forall excl k (s : Draws),
  ~ In (drawnCell s k) excl ->
  exists n j rest,
    generateRandomPosition excl (prefix s n) = Some (drawnCell s j, rest) /\
    (j <= k)%nat /\ ~ In (drawnCell s j) excl.
Proof.
  intros excl; induction k as [|k IH]; intros s Hfree.
  - exists 2%nat, 0%nat, []. split; [|split; [lia|assumption]].
    apply some_not_In in Hfree.
    unfold prefix; cbn [seq map generateRandomPosition].
    unfold drawnCell in Hfree; simpl in Hfree. rewrite Hfree. reflexivity.
  - destruct (existsb (fun pos => samePos pos (drawnCell s 0)) excl) eqn:E.
    + rewrite <- drawnCell_shift in Hfree.
      destruct (IH _ Hfree) as (n & j & rest & Hg & Hj & Hn).
      exists (S (S n)), (S j), rest.
      rewrite prefix_two_more; cbn [generateRandomPosition].
      unfold drawnCell in E; simpl in E; rewrite E.
      rewrite <- drawnCell_shift. repeat split; [assumption|lia|assumption].
    + exists 2%nat, 0%nat, []. split; [|split; [lia|]].
      * unfold prefix; cbn [seq map generateRandomPosition].
        unfold drawnCell in E; simpl in E; rewrite E. reflexivity.
      * apply some_not_In; assumption.
Qed.

(** On a covered board every candidate is rejected, however long the tape. *)
Lemma generateRandomPosition_starves : forall excl,
  coversBoard excl = true ->
  forall tape, Forall validDraw tape ->
  generateRandomPosition excl tape = None.
Proof.
  intros excl Hcov; rewrite coversBoard_true in Hcov.
  fix IH 1; intros tape HV.
  destruct tape as [|rx [|ry tl]]; try reflexivity.
  inversion HV as [|? ? Hx HV']; subst.
  inversion HV' as [|? ? Hy HV'']; subst.
  cbn [generateRandomPosition].
  assert (Hin : In (mkPosition (randomCoord rx) (randomCoord ry)) excl).
  { apply Hcov, inBounds_range; simpl; split; apply randomCoord_range;
      assumption. }
  apply some_In in Hin; rewrite Hin. exact (IH tl HV'').
Qed.

Lemma prefix_valid : forall (s : Draws) n,
  (forall i, validDraw (s i)) -> Forall validDraw (prefix s n).
Proof.
  intros s n H; unfold prefix; apply Forall_forall.
  intros r Hr; apply in_map_iff in Hr as [i [<- _]]; apply H.
Qed.

(** C9. Let the draws of [Math.random] lie in [0,1) and leave no cell of the
    board undrawn for ever, as uniform drawing does with probability one.
    Then for every exclusion list that does not cover the 225 cells,
    [generateRandomPosition] returns after finitely many draws, and the cell
    it returns is in bounds and not excluded; a run that never returns forces
    the exclusion list to cover the whole board, and on such a list the loop
    indeed never returns. *)
Theorem generateRandomPosition_terminates : forall (s : Draws) excl,
  (forall i, validDraw (s i)) ->
  everyCellDrawn s ->
  (coversBoard excl = false ->
     exists n p rest,
       generateRandomPosition excl (prefix s n) = Some (p, rest) /\
       inBounds p = true /\ ~ In p excl) /\
  ((forall n, generateRandomPosition excl (prefix s n) = None) ->
     coversBoard excl = true) /\
  (coversBoard excl = true ->
     forall n, generateRandomPosition excl (prefix s n) = None).
Proof.
  intros s excl HV Hfair.
  assert (A : coversBoard excl = false ->
     exists n p rest,
       generateRandomPosition excl (prefix s n) = Some (p, rest) /\
       inBounds p = true /\ ~ In p excl).
  { intros Hnc.
    destruct (coversBoard_false excl Hnc) as [c [Hc Hfree]].
    destruct (Hfair c Hc) as [k Hk]. rewrite <- Hk in Hfree.
    destruct (generateRandomPosition_stops excl k s Hfree)
      as (n & j & rest & Hg & _ & Hn).
    exists n, (drawnCell s j), rest. repeat split; try assumption.
    exact (proj1 (generateRandomPosition_inBounds excl _ _ _
                    (prefix_valid s n HV) Hg)). }
  split; [exact A|]. split.
  - intros Hnever. destruct (coversBoard excl) eqn:E; [reflexivity|].
    destruct (A eq_refl) as (n & p & rest & Hg & _).
    rewrite Hnever in Hg; discriminate.
  - intros Hcov n.
    apply generateRandomPosition_starves; [assumption|].
    apply prefix_valid; assumption.
Qed.

Lemma cycleDraws_valid : forall i, validDraw (cycleDraws i).
Proof.
  intros i; unfold cycleDraws, validDraw, GRID_SIZE, Qle, Qlt.
  generalize (Z.of_nat (Nat.div i 2)); intros k.
  destruct (Nat.even i); simpl Qnum; simpl Qden.
  - pose proof (Z.mod_pos_bound k 15 eq_refl); lia.
  - pose proof (Z.mod_pos_bound (k / 15) 15 eq_refl); lia.
Qed.

Lemma cycleDraws_everyCellDrawn : everyCellDrawn cycleDraws.
Proof.
  intros c Hc. exists (Z.to_nat (x c + 15 * y c)).
  apply board_inBounds in Hc.
  assert (H : forallb (fun c =>
              samePos (drawnCell cycleDraws (Z.to_nat (x c + 15 * y c))) c)
              board = true) by (vm_compute; reflexivity).
  rewrite forallb_forall in H. apply samePos_eq, H; assumption.
Qed.

Lemma generateRandomPosition_terminates_witness :
  exists n p rest,
    generateRandomPosition
      ([mkPosition 10 10] ++ getSnakeBufferZone [mkPosition 10 10])
      (prefix cycleDraws n) = Some (p, rest) /\
    inBounds p = true /\
    ~ In p ([mkPosition 10 10] ++ getSnakeBufferZone [mkPosition 10 10]).
Proof.
  apply (generateRandomPosition_terminates cycleDraws
           ([mkPosition 10 10] ++ getSnakeBufferZone [mkPosition 10 10])
           cycleDraws_valid cycleDraws_everyCellDrawn).
  vm_compute; reflexivity.
Defined.

(** ** Obstacle placement *)

Lemma generateObstaclesLoop_spec : forall n i excl acc nid tape obs nid' rest,
  generateObstaclesLoop n i excl acc nid tape = Some ((obs, nid'), rest) ->
  NoDup (map position acc) ->
  (forall q, In q (map position acc) -> ~ In q excl) ->
  NoDup (map position obs) /\
  (forall q, In q (map position obs) -> ~ In q excl) /\
  List.length obs = (List.length acc + n)%nat.
Proof.
  induction n as [|n IH]; intros i excl acc nid tape obs nid' rest.
  - cbn [generateObstaclesLoop]; unfold ret.
    intros E; injection E as <- _ _. intros; repeat split; auto.
  - cbn [generateObstaclesLoop]; unfold bind.
    destruct (generateRandomPosition _ tape) as [[pos rest1]|] eqn:Eg;
      [|discriminate].
    apply generateRandomPosition_not_excluded in Eg as [Hfree _].
    intros Hloop Hnd Hex.
    apply IH in Hloop.
    + destruct Hloop as (A & B & C). repeat split; try assumption.
      rewrite C, last_length; lia.
    + rewrite map_app; apply NoDup_app; [assumption|repeat constructor; auto|].
      intros a Ha [<-|[]]. apply Hfree, in_or_app; right; assumption.
    + rewrite map_app; intros q Hq.
      apply in_app_or in Hq as [Hq|[<-|[]]]; [auto|].
      intros Hin; apply Hfree, in_or_app; left; assumption.
Qed.

Lemma generateObstacles_spec : forall count sn fd nid tape obs nid' rest,
  generateObstacles count sn fd nid tape = Some ((obs, nid'), rest) ->
  NoDup (map position obs) /\
  (forall q, In q (map position obs) ->
     ~ In q sn /\ ~ In q (getSnakeBufferZone sn) /\ q <> fd) /\
  List.length obs = Z.to_nat count.
Proof.
  intros count sn fd nid tape obs nid' rest; unfold generateObstacles.
  intros E; apply generateObstaclesLoop_spec in E;
    [|constructor|intros q []].
  destruct E as (A & B & C). repeat split; try assumption.
  - intros Hin; apply (B q H), in_or_app; left; assumption.
  - intros Hin; apply (B q H), in_or_app; right.
    apply in_or_app; left; assumption.
  - intros ->; apply (B fd H), in_or_app; right.
    apply in_or_app; right; left; reflexivity.
Qed.

(** What a placement leaves behind, from the exclusion lists it was run
    with. *)
Lemma placement_placed : forall st sn fd obs,
  snake st = sn -> food st = fd -> obstacles st = obs ->
  ~ In fd (sn ++ getSnakeBufferZone sn) ->
  NoDup (map position obs) ->
  (forall q, In q (map position obs) ->
     ~ In q sn /\ ~ In q (getSnakeBufferZone sn) /\ q <> fd) ->
  placed st.
Proof.
  intros st sn fd obs Hs Hf Ho Hfd Hnd Hobs; subst sn fd obs.
  unfold placed.
  repeat split.
  - intros H; apply Hfd, in_or_app; left; assumption.
  - intros H; apply Hfd, in_or_app; right; assumption.
  - intros H; destruct (Hobs _ H) as (_ & _ & Hne); apply Hne; reflexivity.
  - assumption.
  - apply (Hobs (position o)), in_map; assumption.
  - apply (Hobs (position o)), in_map; assumption.
  - apply (Hobs (position o)), in_map; assumption.
Qed.

Lemma initGame_spec : forall st tape st' tape',
  initGame st tape = Some (st', tape') ->
  snake st' = [mkPosition 10 10] /\
  directionRef st' = RIGHT /\
  gameOver st' = false /\
  score st' = 0 /\
  speed st' = INITIAL_SPEED /\
  highScore st' = highScore st /\
  gameStarted st' = gameStarted st /\
  isPaused st' = isPaused st /\
  List.length (obstacles st') = 3%nat /\
  placed st'.
Proof.
  intros st tape st' tape'; unfold initGame, bind, ret.
  destruct (generateRandomPosition _ tape) as [[nf rest]|] eqn:Ef;
    [|discriminate].
  destruct (generateObstacles _ _ _ _ rest) as [[[obs nid] rest']|] eqn:Eo;
    [|discriminate].
  intros E; injection E as <- _.
  apply generateRandomPosition_not_excluded in Ef as [Hfd _].
  apply generateObstacles_spec in Eo as (Hnd & Hobs & Hlen).
  repeat (split; [first [reflexivity | assumption]|]).
  eapply placement_placed; try reflexivity; eassumption.
Qed.

Lemma growAndReplace_spec : forall st h tape st' tape',
  growAndReplace st h tape = Some (st', tape') ->
  snake st' = h :: snake st /\
  directionRef st' = directionRef st /\
  gameOver st' = gameOver st /\
  score st' = score st + 10 /\
  speed st' = Z.max MIN_SPEED (speed st - SPEED_INCREASE) /\
  highScore st' = highScore st /\
  gameStarted st' = gameStarted st /\
  isPaused st' = isPaused st /\
  List.length (obstacles st') = Z.to_nat (Z.min (3 + (score st + 10) / 50) 8) /\
  placed st'.
Proof.
  intros st h tape st' tape'; unfold growAndReplace, bind, ret.
  destruct (generateRandomPosition _ tape) as [[nf rest]|] eqn:Ef;
    [|discriminate].
  destruct (generateObstacles _ _ _ _ rest) as [[[obs nid] rest']|] eqn:Eo;
    [|discriminate].
  intros E; injection E as <- _.
  apply generateRandomPosition_not_excluded in Ef as [Hfd _].
  apply generateObstacles_spec in Eo as (Hnd & Hobs & Hlen).
  repeat (split; [first [reflexivity | assumption]|]).
  eapply placement_placed; try reflexivity; eassumption.
Qed.

(** ** One event, case by case *)

Lemma keepsSession_refl : forall st, keepsSession st st.
Proof. intros st; unfold keepsSession; repeat split; auto; lia. Qed.

Lemma endGame_keepsSession : forall st, keepsSession st (endGame st).
Proof.
  intros st; destruct (endGame_fields st) as (_ & _ & Hf & Hob & Hsc & Hsp & Hhi).
  unfold keepsSession; repeat split; try assumption.
  - rewrite Hhi; destruct (score st >? highScore st) eqn:E; lia.
  - unfold endGame; simpl.
    destruct (score st >? highScore st); simpl; auto.
Qed.

Ltac keeps_session :=
  first [ apply keepsSession_refl
        | unfold keepsSession; simpl; repeat split; auto; lia ].

Lemma moveSnake_cases : forall st tape st' tape',
  moveSnake st tape = Some (st', tape') ->
  (eats st = true /\
   exists h, newHead st = Some h /\
             growAndReplace st h tape = Some (st', tape')) \/
  (eats st = false /\ tape' = tape /\ keepsSession st st').
Proof.
  intros st tape st' tape' HM. unfold eats.
  destruct (Running st) eqn:HR.
  2: { rewrite (moveSnake_not_running st tape HR) in HM.
       injection HM as <- <-. right; repeat (split; [reflexivity|]).
       keeps_session. }
  destruct (newHead st) as [h|] eqn:HN.
  2: { rewrite (moveSnake_empty st tape HN) in HM.
       injection HM as <- <-. right; repeat (split; [reflexivity|]).
       apply keepsSession_refl. }
  rewrite (moveSnake_running st h tape HR HN) in HM.
  destruct (collides st h) eqn:Hc.
  { injection HM as <- <-. right; repeat (split; [reflexivity|]).
    apply endGame_keepsSession. }
  destruct (samePos h (food st)) eqn:Hf.
  - left; split; [reflexivity|]. exists h; auto.
  - injection HM as <- <-. right; repeat (split; [reflexivity|]).
    unfold keepsSession; simpl; repeat split; auto; lia.
Qed.

Lemma handleKeyPress_cases : forall key st tape st' tape',
  handleKeyPress key st tape = Some (st', tape') ->
  (startsSession (KeyDown key) st = true /\
   initGame st tape = Some (st', tape')) \/
  (startsSession (KeyDown key) st = false /\ tape' = tape /\
   keepsSession st st' /\ snake st' = snake st).
Proof.
  intros key st tape st' tape'; unfold handleKeyPress, startsSession.
  destruct (gameStarted st) eqn:Hs; simpl.
  2: { intros E; injection E as <- <-.
       right; repeat (split; [reflexivity|]).
       split; [keeps_session|reflexivity]. }
  destruct (String.eqb key " ") eqn:Hk; simpl.
  { destruct (gameOver st) eqn:Ho.
    - intros E; left; auto.
    - intros E; injection E as <- <-.
      right; repeat (split; [reflexivity|]).
      split; [unfold keepsSession; simpl; rewrite Hs; repeat split; auto; lia
             |reflexivity]. }
  destruct (gameOver st || isPaused st).
  { intros E; injection E as <- <-.
    right; repeat (split; [reflexivity|]).
    split; [keeps_session|reflexivity]. }
  match goal with
  | |- match ?nd with _ => _ end tape = _ -> _ => destruct nd as [dir|]
  end.
  - intros E; injection E as <- <-.
    right; repeat (split; [reflexivity|]).
    split; [unfold keepsSession; simpl; rewrite Hs; repeat split; auto; lia
           |reflexivity].
  - intros E; injection E as <- <-.
    right; repeat (split; [reflexivity|]).
    split; [keeps_session|reflexivity].
Qed.

Lemma step_cases : forall e st tape st' tape',
  step e st tape = Some (st', tape') ->
  (startsSession e st = true /\
   exists st0, highScore st0 = highScore st /\
               initGame st0 tape = Some (st', tape')) \/
  (isTick e = true /\ eats st = true /\
   exists h, newHead st = Some h /\
             growAndReplace st h tape = Some (st', tape')) \/
  (startsSession e st = false /\ isTick e && eats st = false /\
   tape' = tape /\ keepsSession st st').
Proof.
  intros e st tape st' tape' Hstep.
  destruct e as [|key| | |]; cbn [step] in Hstep.
  - apply moveSnake_cases in Hstep as [[He Hg]|(He & Ht & Hk)].
    + right; left; auto.
    + right; right; simpl; rewrite He; auto.
  - apply handleKeyPress_cases in Hstep as [[Hs Hi]|(Hs & Ht & Hk & _)].
    + left; split; [assumption|]. exists st; auto.
    + right; right; auto.
  - cbn [startsSession]. destruct (gameStarted st) eqn:Hs; simpl in *.
    + injection Hstep as <- <-. right; right; repeat (split; [reflexivity|]).
      apply keepsSession_refl.
    + left; split; [reflexivity|].
      exists (setGameStarted true st); auto.
  - cbn [startsSession]. destruct (gameOver st) eqn:Ho.
    + left; split; [reflexivity|]. exists st; auto.
    + injection Hstep as <- <-. right; right; repeat (split; [reflexivity|]).
      apply keepsSession_refl.
  - cbn [startsSession]. destruct (gameOver st) eqn:Ho.
    + injection Hstep as <- <-. right; right; repeat (split; [reflexivity|]).
      unfold keepsSession; simpl; repeat split; auto; try lia; discriminate.
    + injection Hstep as <- <-. right; right; repeat (split; [reflexivity|]).
      apply keepsSession_refl.
Qed.

(** ** Reachable states *)

Lemma run_reachable : forall es st, reachable st -> reachable (run es st).
Proof.
  induction es as [|[e tape] es IH]; intros st Hr; [assumption|].
  cbn [run]. destruct (step e st tape) as [[st' tape']|] eqn:E; [|assumption].
  apply IH. eapply reachable_step; eassumption.
Qed.

Lemma demoMoved_reachable : reachable demoMoved.
Proof. apply run_reachable, reachable_mount. Qed.

Lemma demoMoved_eats : eats demoMoved = true.
Proof. vm_compute; reflexivity. Qed.

Lemma initialState_good : goodState initialState.
Proof.
  unfold goodState; simpl. split; [exists 0; lia|].
  split; [unfold MIN_SPEED, INITIAL_SPEED; lia|discriminate].
Qed.

Lemma step_good : forall e st tape st' tape',
  goodState st -> step e st tape = Some (st', tape') -> goodState st'.
Proof.
  intros e st tape st' tape' ((k & Hk & Hsc) & Hsp & Hob) Hstep.
  apply step_cases in Hstep
    as [[_ (st0 & _ & Hi)] | [(_ & _ & h & _ & Hg) | (_ & _ & _ & Hq)]].
  - apply initGame_spec in Hi
      as (_ & _ & _ & Hs & Hv & _ & _ & _ & Hl & _).
    unfold goodState. rewrite Hs, Hv, Hl.
    split; [exists 0; lia|].
    split; [unfold MIN_SPEED, INITIAL_SPEED; lia|]. intros _; reflexivity.
  - apply growAndReplace_spec in Hg
      as (_ & _ & _ & Hs & Hv & _ & _ & _ & Hl & _).
    unfold goodState. rewrite Hs, Hv, Hl.
    split; [exists (k + 1); lia|].
    split; [unfold MIN_SPEED, INITIAL_SPEED, SPEED_INCREASE in *; lia|].
    intros _.
    assert (0 <= (score st + 10) / 50) by (apply Z.div_pos; lia).
    lia.
  - destruct Hq as (Hs & Hv & _ & Ho & _ & Hg).
    unfold goodState. rewrite Hs, Hv, Ho.
    split; [exists k; auto|]. split; [assumption|].
    intros Hst; apply Hob, Hg, Hst.
Qed.

Lemma reachable_good : forall st, reachable st -> goodState st.
Proof.
  induction 1 as [|e st tape st' tape' _ IH Hstep].
  - apply initialState_good.
  - eapply step_good; eassumption.
Qed.

(** ** Placement events return *)

(** The theorems above speak of the state a placement event leaves.  This
    section shows that such an event does return when fed from a supply of
    draws that never abandons a cell: always for [initGame], and for a tick on
    which the snake eats as long as the snake is short enough for its buffer
    zone to leave room on the board. *)

Lemma prefix_ext : forall (s s' : Draws) n,
  (forall i, s i = s' i) -> prefix s n = prefix s' n.
Proof. intros s s' n H; unfold prefix; apply map_ext; intros; apply H. Qed.

Lemma shiftRounds_add : forall a b (s : Draws) i,
  shiftRounds a (shiftRounds b s) i = shiftRounds (b + a) s i.
Proof. intros; unfold shiftRounds; f_equal; lia. Qed.

Lemma drawnForever_shift : forall r s,
  drawnForever s -> drawnForever (shiftRounds r s).
Proof.
  intros r s H r' c Hc. destruct (H (r + r')%nat c Hc) as [k Hk].
  exists k. rewrite <- Hk. unfold drawnCell.
  rewrite !shiftRounds_add. reflexivity.
Qed.

Lemma ret_returnsOn : forall (A : Type) (a : A) s (P : A -> Prop),
  P a -> returnsOn (ret a) s P.
Proof.
  intros A a s P Ha. exists 0%nat, a. split; [assumption|].
  intros n; reflexivity.
Qed.

Lemma bind_returnsOn :
  forall (A B : Type) (m : Rand A) (k : A -> Rand B) s
         (P : A -> Prop) (Q : B -> Prop),
  returnsOn m s P ->
  (forall a r, P a -> returnsOn (k a) (shiftRounds r s) Q) ->
  returnsOn (bind m k) s Q.
Proof.
  intros A B m k s P Q (r1 & a & Pa & H1) Hk.
  destruct (Hk a r1 Pa) as (r2 & b & Qb & H2).
  exists (r1 + r2)%nat, b. split; [assumption|]. intros n; unfold bind.
  replace (2 * (r1 + r2) + n)%nat with (2 * r1 + (2 * r2 + n))%nat by lia.
  rewrite H1, H2. do 2 f_equal. apply prefix_ext, shiftRounds_add.
Qed.

Lemma returnsOn_weaken :
  forall (A : Type) (m : Rand A) s (P Q : A -> Prop),
  (forall a, P a -> Q a) -> returnsOn m s P -> returnsOn m s Q.
Proof.
  intros A m s P Q HPQ (r & a & Pa & H). exists r, a; auto.
Qed.

Lemma generateRandomPosition_returnsOn_round : forall excl k (s : Draws),
  ~ In (drawnCell s k) excl ->
  returnsOn (generateRandomPosition excl) s (fun p => ~ In p excl).
Proof.
  intros excl; induction k as [|k IH]; intros s Hfree.
  - exists 1%nat, (drawnCell s 0). split; [assumption|]. intros n.
    apply some_not_In in Hfree.
    change (2 * 1 + n)%nat with (S (S n)). rewrite prefix_two_more.
    cbn [generateRandomPosition].
    unfold drawnCell in Hfree; simpl in Hfree. rewrite Hfree. reflexivity.
  - destruct (existsb (fun pos => samePos pos (drawnCell s 0)) excl) eqn:E.
    + rewrite <- drawnCell_shift in Hfree.
      destruct (IH _ Hfree) as (r & a & Ha & Hr).
      exists (S r), a. split; [assumption|]. intros n.
      replace (2 * S r + n)%nat with (S (S (2 * r + n))) by lia.
      rewrite prefix_two_more. cbn [generateRandomPosition].
      unfold drawnCell in E; simpl in E; rewrite E.
      rewrite Hr. do 2 f_equal. apply prefix_ext.
      intros i; unfold shiftRounds; f_equal; lia.
    + exists 1%nat, (drawnCell s 0). split; [apply some_not_In; assumption|].
      intros n. change (2 * 1 + n)%nat with (S (S n)).
      rewrite prefix_two_more. cbn [generateRandomPosition].
      unfold drawnCell in E; simpl in E; rewrite E. reflexivity.
Qed.

Lemma generateRandomPosition_returnsOn : forall excl s,
  drawnForever s -> coversBoard excl = false ->
  returnsOn (generateRandomPosition excl) s (fun p => ~ In p excl).
Proof.
  intros excl s Hfair Hnc.
  destruct (coversBoard_false excl Hnc) as [c [Hc Hfree]].
  destruct (Hfair 0%nat c Hc) as [k Hk].
  apply (generateRandomPosition_returnsOn_round excl k).
  change (drawnCell s k) with (drawnCell (shiftRounds 0 s) k).
  rewrite Hk; assumption.
Qed.

Lemma generateObstaclesLoop_returnsOn : forall n i excl acc nid s,
  drawnForever s ->
  (List.length excl + List.length acc + n <= 225)%nat ->
  returnsOn (generateObstaclesLoop n i excl acc nid) s (fun _ => True).
Proof.
  induction n as [|n IH]; intros i excl acc nid s Hfair Hlen.
  - apply ret_returnsOn; exact I.
  - cbn [generateObstaclesLoop].
    eapply bind_returnsOn.
    + apply generateRandomPosition_returnsOn; [assumption|].
      apply short_list_leaves_a_cell.
      rewrite length_app, length_map; lia.
    + intros pos r _. apply IH; [apply drawnForever_shift; assumption|].
      rewrite last_length; lia.
Qed.

Lemma flat_map_length_le : forall (A B : Type) (f : A -> list B) k l,
  (forall a, List.length (f a) <= k)%nat ->
  (List.length (flat_map f l) <= k * List.length l)%nat.
Proof.
  intros A B f k l Hf; induction l as [|a l IH]; simpl; [lia|].
  rewrite length_app. specialize (Hf a). lia.
Qed.

Lemma getSnakeBufferZone_length : forall l,
  (List.length (getSnakeBufferZone l) <= 9 * List.length l)%nat.
Proof.
  intros l; unfold getSnakeBufferZone.
  apply flat_map_length_le; intros pos.
  eapply Nat.le_trans;
    [apply flat_map_length_le with (k := 3%nat) | simpl; lia].
  intros dx.
  eapply Nat.le_trans;
    [apply flat_map_length_le with (k := 1%nat) | simpl; lia].
  intros dy.
  match goal with |- context [if ?c then _ else _] => destruct c end;
    simpl; lia.
Qed.

(** [initGame] returns on every supply that keeps drawing every cell. *)
Lemma initGame_returns : forall st s,
  drawnForever s ->
  exists n st' rest, initGame st (prefix s n) = Some (st', rest).
Proof.
  intros st s Hfair.
  assert (R : returnsOn (initGame st) s (fun _ => True)).
  { unfold initGame. eapply bind_returnsOn.
    - apply generateRandomPosition_returnsOn; [assumption|].
      vm_compute; reflexivity.
    - intros newFood r _. eapply bind_returnsOn.
      + unfold generateObstacles.
        apply generateObstaclesLoop_returnsOn;
          [apply drawnForever_shift; assumption|].
        simpl; lia.
      + intros [newObstacles nextId] r' _. apply ret_returnsOn; exact I. }
  destruct R as (r & st' & _ & H).
  exists (2 * r + 0)%nat, st', (prefix (shiftRounds r s) 0). apply H.
Qed.

(** A tick returns as well, as long as the snake has at most 20 cells. *)
Lemma moveSnake_returns : forall st s,
  drawnForever s ->
  0 <= score st ->
  (List.length (snake st) <= 20)%nat ->
  exists n st' rest, moveSnake st (prefix s n) = Some (st', rest).
Proof.
  intros st s Hfair Hsc Hlen.
  destruct (Running st) eqn:HR.
  2: { exists 0%nat, st, (prefix s 0). apply moveSnake_not_running, HR. }
  destruct (newHead st) as [h|] eqn:HN.
  2: { exists 0%nat, st, (prefix s 0). apply moveSnake_empty, HN. }
  assert (R : returnsOn (growAndReplace st h) s (fun _ => True)).
  { unfold growAndReplace.
    pose proof (getSnakeBufferZone_length (h :: snake st)) as Hb.
    cbn [List.length] in Hb.
    eapply bind_returnsOn.
    - apply generateRandomPosition_returnsOn; [assumption|].
      apply short_list_leaves_a_cell.
      rewrite length_app; cbn [List.length]; lia.
    - intros newFood r _. eapply bind_returnsOn.
      + unfold generateObstacles.
        apply generateObstaclesLoop_returnsOn;
          [apply drawnForever_shift; assumption|].
        rewrite !length_app; cbn [List.length].
        assert (0 <= (score st + 10) / 50) by (apply Z.div_pos; lia).
        lia.
      + intros res r' _. apply ret_returnsOn; exact I. }
  destruct R as (r & st2 & _ & H).
  exists (2 * r + 0)%nat.
  rewrite (moveSnake_running st h _ HR HN).
  destruct (collides st h); [eauto|].
  destruct (samePos h (food st)); [|eauto].
  exists st2, (prefix (shiftRounds r s) 0). apply H.
Qed.

(** The cyclic supply is one that never abandons a cell. *)
Lemma cycleDraws_round : forall K,
  drawnCell cycleDraws K =
  mkPosition (Z.of_nat K mod 15) ((Z.of_nat K / 15) mod 15).
Proof.
  intros K. unfold drawnCell, cycleDraws, GRID_SIZE.
  assert (E0 : Nat.even (2 * K) = true).
  { rewrite Nat.even_mul; reflexivity. }
  assert (E1 : Nat.even (2 * K + 1) = false).
  { rewrite Nat.even_add, E0; reflexivity. }
  assert (D0 : Nat.div (2 * K) 2 = K).
  { rewrite Nat.mul_comm; apply Nat.div_mul; discriminate. }
  assert (D1 : Nat.div (2 * K + 1) 2 = K).
  { rewrite (Nat.mul_comm 2 K), Nat.div_add_l by discriminate.
    simpl; lia. }
  rewrite E0, E1, D0, D1.
  assert (F : forall a, randomCoord (a # 15) = a).
  { intros a. unfold randomCoord, GRID_SIZE, Qfloor, Qmult, inject_Z.
    simpl Qnum; simpl Qden. apply Z.div_mul; discriminate. }
  rewrite !F. reflexivity.
Qed.

Lemma cycleDraws_drawnForever : drawnForever cycleDraws.
Proof.
  intros r c Hc. apply inBounds_range in Hc. unfold GRID_SIZE in Hc.
  exists (Z.to_nat ((x c + 15 * y c - Z.of_nat r) mod 225)).
  assert (S : forall k, drawnCell (shiftRounds r cycleDraws) k
                        = drawnCell cycleDraws (r + k)).
  { intros k; unfold drawnCell, shiftRounds; do 3 f_equal; lia. }
  rewrite S, cycleDraws_round.
  pose proof (Z.mod_pos_bound (x c + 15 * y c - Z.of_nat r) 225 eq_refl) as Hm.
  rewrite Nat2Z.inj_add, Z2Nat.id by lia.
  destruct c as [cx cy]; cbn [x y] in *. f_equal.
  - Z.div_mod_to_equations; lia.
  - Z.div_mod_to_equations; lia.
Qed.

(** ** Placement, obstacle count, speed and score *)

(** C2. Right after every placement event, that is after [initGame] and after
    every tick on which the snake eats, the food cell is no snake cell, no
    cell of the snake's buffer zone and no obstacle cell, and the obstacle
    cells are pairwise distinct and lie outside the snake, outside its buffer
    zone and off the food cell.  Such events do take place: on draws that
    never abandon a cell [initGame] always returns, and so does an eating
    tick of a snake of at most 20 cells. *)
Theorem placement_events_place_apart :
  (forall st tape st' tape',
     initGame st tape = Some (st', tape') -> placed st') /\
  (forall e st tape st' tape',
     step e st tape = Some (st', tape') ->
     startsSession e st = true \/ (isTick e = true /\ eats st = true) ->
     placed st') /\
  (forall st s,
     drawnForever s ->
     exists n st' rest,
       initGame st (prefix s n) = Some (st', rest) /\ placed st') /\
  (forall st s,
     drawnForever s -> reachable st -> eats st = true ->
     (List.length (snake st) <= 20)%nat ->
     exists n st' rest,
       moveSnake st (prefix s n) = Some (st', rest) /\ placed st').
Proof.
  assert (A : forall e st tape st' tape',
     step e st tape = Some (st', tape') ->
     startsSession e st = true \/ (isTick e = true /\ eats st = true) ->
     placed st').
  { intros e st tape st' tape' Hstep Hev.
    apply step_cases in Hstep
      as [[_ (st0 & _ & Hi)] | [(_ & _ & h & _ & Hg) | (Hs & Ht & _)]].
    + apply initGame_spec in Hi. apply Hi.
    + apply growAndReplace_spec in Hg. apply Hg.
    + destruct Hev as [Hev | [H1 H2]]; [congruence|].
      rewrite H1, H2 in Ht; discriminate. }
  split; [|split; [exact A|split]].
  - intros st tape st' tape' Hi. apply initGame_spec in Hi. apply Hi.
  - intros st s Hfair.
    destruct (initGame_returns st s Hfair) as (n & st' & rest & Hi).
    exists n, st', rest; split; [assumption|].
    apply initGame_spec in Hi. apply Hi.
  - intros st s Hfair Hr He Hlen.
    destruct (reachable_good st Hr) as ((k & Hk & Hsc) & _).
    destruct (moveSnake_returns st s Hfair ltac:(lia) Hlen)
      as (n & st' & rest & HM).
    exists n, st', rest; split; [assumption|].
    apply (A Tick st (prefix s n) st' rest HM). right; auto.
Qed.

Lemma placement_events_place_apart_witness :
  exists st' tape',
    step Tick demoMoved eatTape = Some (st', tape') /\ placed st'.
Proof.
  destruct (step Tick demoMoved eatTape) as [[st' tape']|] eqn:E;
    [|vm_compute in E; discriminate E].
  exists st', tape'; split; [reflexivity|].
  destruct placement_events_place_apart as (_ & A & _).
  apply (A Tick demoMoved eatTape st' tape' E).
  right; split; [reflexivity | exact demoMoved_eats].
Defined.

(** C5. Right after a tick on which the snake eats, the score is the old
    score plus 10 and the number of obstacles is min(3 + floor(s/50), 8) for
    that new score s; a fresh session has exactly 3 obstacles, and it does
    start on draws that never abandon a cell; and throughout a started game
    the count follows the same formula and so lies between 3 and 8. *)
Theorem obstacle_count_follows_score :
  (forall st tape st' tape',
     reachable st -> eats st = true ->
     moveSnake st tape = Some (st', tape') ->
     score st' = score st + 10 /\
     Z.of_nat (List.length (obstacles st')) = Z.min (3 + score st' / 50) 8 /\
     (3 <= List.length (obstacles st') <= 8)%nat) /\
  (forall st tape st' tape',
     initGame st tape = Some (st', tape') ->
     List.length (obstacles st') = 3%nat) /\
  (forall st s,
     drawnForever s ->
     exists n st' rest,
       initGame st (prefix s n) = Some (st', rest) /\
       List.length (obstacles st') = 3%nat) /\
  (forall st,
     reachable st -> gameStarted st = true ->
     Z.of_nat (List.length (obstacles st)) = Z.min (3 + score st / 50) 8 /\
     (3 <= List.length (obstacles st) <= 8)%nat).
Proof.
  assert (B : forall s, 0 <= s -> 3 <= Z.min (3 + s / 50) 8 <= 8).
  { intros s Hs. assert (0 <= s / 50) by (apply Z.div_pos; lia). lia. }
  split; [|split; [|split]].
  - intros st tape st' tape' Hr He HM.
    destruct (reachable_good st Hr) as ((k & Hk & Hsc) & _ & _).
    apply moveSnake_cases in HM as [(_ & h & _ & Hg) | (He' & _)];
      [|congruence].
    apply growAndReplace_spec in Hg
      as (_ & _ & _ & Hs & _ & _ & _ & _ & Hl & _).
    rewrite Hs, Hl. specialize (B (score st + 10)). lia.
  - intros st tape st' tape' Hi. apply initGame_spec in Hi. apply Hi.
  - intros st s Hfair.
    destruct (initGame_returns st s Hfair) as (n & st' & rest & Hi).
    exists n, st', rest; split; [assumption|].
    apply initGame_spec in Hi. apply Hi.
  - intros st Hr Hst.
    destruct (reachable_good st Hr) as ((k & Hk & Hsc) & _ & Hob).
    specialize (Hob Hst). specialize (B (score st)). lia.
Qed.

Lemma obstacle_count_follows_score_witness :
  exists st' tape',
    moveSnake demoMoved eatTape = Some (st', tape') /\
    score st' = 10 /\ List.length (obstacles st') = 3%nat.
Proof.
  destruct (moveSnake demoMoved eatTape) as [[st' tape']|] eqn:E;
    [|vm_compute in E; discriminate E].
  exists st', tape'; split; [reflexivity|].
  destruct (proj1 obstacle_count_follows_score demoMoved eatTape st' tape'
              demoMoved_reachable demoMoved_eats E) as (Hs & Hl & _).
  split; [exact Hs|].
  rewrite Hs in Hl. apply Nat2Z.inj. rewrite Hl. reflexivity.
Defined.

(** C6. The speed of a session starts at [INITIAL_SPEED]; a tick on which the
    snake eats replaces it by max(MIN_SPEED, speed - 5), and every other
    event that does not start a new session leaves it as it is.  In every
    reachable state the speed is at least [MIN_SPEED], and within a session
    it never increases. *)
Theorem speed_steps_down_to_floor :
  speed initialState = INITIAL_SPEED /\
  SPEED_INCREASE = 5 /\ MIN_SPEED = 50 /\
  (forall e st tape st' tape',
     step e st tape = Some (st', tape') ->
     speed st' =
       if startsSession e st then INITIAL_SPEED
       else if isTick e && eats st
            then Z.max MIN_SPEED (speed st - SPEED_INCREASE)
            else speed st) /\
  (forall st, reachable st -> MIN_SPEED <= speed st <= INITIAL_SPEED) /\
  (forall e st tape st' tape',
     reachable st -> step e st tape = Some (st', tape') ->
     startsSession e st = false ->
     MIN_SPEED <= speed st' <= speed st).
Proof.
  assert (A : forall e st tape st' tape',
     step e st tape = Some (st', tape') ->
     speed st' =
       if startsSession e st then INITIAL_SPEED
       else if isTick e && eats st
            then Z.max MIN_SPEED (speed st - SPEED_INCREASE)
            else speed st).
  { intros e st tape st' tape' Hstep.
    apply step_cases in Hstep
      as [[Hs (st0 & _ & Hi)] | [(Ht & He & h & _ & Hg) | (Hs & Ht & _ & Hq)]].
    - rewrite Hs. apply initGame_spec in Hi. apply Hi.
    - destruct e; try discriminate Ht. cbn [startsSession isTick andb].
      rewrite He. apply growAndReplace_spec in Hg. apply Hg.
    - rewrite Hs, Ht. apply Hq. }
  repeat (split; [reflexivity|]). split; [exact A|]. split.
  - intros st Hr. apply (reachable_good st Hr).
  - intros e st tape st' tape' Hr Hstep Hs.
    pose proof (proj1 (proj2 (reachable_good st Hr))) as Hb.
    rewrite (A _ _ _ _ _ Hstep), Hs.
    unfold MIN_SPEED, SPEED_INCREASE in *.
    destruct (isTick e && eats st); lia.
Qed.

Lemma speed_steps_down_to_floor_witness :
  exists st' tape',
    step Tick demoMoved eatTape = Some (st', tape') /\
    speed demoMoved = 150 /\ speed st' = 145.
Proof.
  destruct (step Tick demoMoved eatTape) as [[st' tape']|] eqn:E;
    [|vm_compute in E; discriminate E].
  exists st', tape'; split; [reflexivity|]. split; [reflexivity|].
  destruct speed_steps_down_to_floor as (_ & _ & _ & A & _).
  rewrite (A Tick demoMoved eatTape st' tape' E).
  reflexivity.
Defined.

(** C7. In every reachable state the score is a non-negative multiple of 10:
    it is 0 when a session starts and changes only by +10, on a tick on which
    the snake eats.  No event, a restart included, ever lowers [highScore]. *)
Theorem score_and_highScore :
  (forall st, reachable st -> 0 <= score st /\ score st mod 10 = 0) /\
  score initialState = 0 /\
  (forall e st tape st' tape',
     step e st tape = Some (st', tape') ->
     score st' =
       if startsSession e st then 0
       else if isTick e && eats st then score st + 10
            else score st) /\
  (forall e st tape st' tape',
     step e st tape = Some (st', tape') -> highScore st <= highScore st').
Proof.
  split; [|split; [reflexivity|split]].
  - intros st Hr. destruct (reachable_good st Hr) as ((k & Hk & Hsc) & _).
    rewrite Hsc. split; [lia|].
    rewrite Z.mul_comm. apply Z_mod_mult.
  - intros e st tape st' tape' Hstep.
    apply step_cases in Hstep
      as [[Hs (st0 & _ & Hi)] | [(Ht & He & h & _ & Hg) | (Hs & Ht & _ & Hq)]].
    + rewrite Hs. apply initGame_spec in Hi. apply Hi.
    + destruct e; try discriminate Ht. cbn [startsSession isTick andb].
      rewrite He. apply growAndReplace_spec in Hg. apply Hg.
    + rewrite Hs, Ht. apply Hq.
  - intros e st tape st' tape' Hstep.
    apply step_cases in Hstep
      as [[Hs (st0 & Hh & Hi)] | [(Ht & He & h & _ & Hg) | (Hs & Ht & _ & Hq)]].
    + apply initGame_spec in Hi as (_ & _ & _ & _ & _ & Hhi & _). lia.
    + apply growAndReplace_spec in Hg as (_ & _ & _ & _ & _ & Hhi & _). lia.
    + apply Hq.
Qed.

Lemma score_and_highScore_witness :
  0 <= score (run [(Tick, eatTape)] demoMoved) /\
  score (run [(Tick, eatTape)] demoMoved) mod 10 = 0.
Proof.
  apply (proj1 score_and_highScore).
  apply run_reachable, demoMoved_reachable.
Defined.

(** ** The input controller *)

Lemma space_is_no_heading : forall key,
  String.eqb key " " = true -> keyHeading key = None.
Proof. intros key H; apply String.eqb_eq in H; subst; reflexivity. Qed.

(** C8. A movement key whose heading is the exact reverse of the committed
    heading ([directionRef.current]) is ignored: the handler returns the state
    it was given, so the committed heading after the event is the one before
    it. *)
Theorem reverse_key_is_ignored : forall key st tape,
  keyHeading key = Some (opposite (directionRef st)) ->
  exists st',
    handleKeyPress key st tape = Some (st', tape) /\
    directionRef st' = directionRef st /\
    direction st' = direction st /\
    st' = st.
Proof.
  intros key st tape Hk. exists st.
  split; [|repeat split; reflexivity].
  unfold handleKeyPress.
  destruct (gameStarted st); [|reflexivity]. cbn [negb].
  destruct (String.eqb key " ") eqn:Hsp.
  { rewrite (space_is_no_heading key Hsp) in Hk; discriminate. }
  destruct (gameOver st || isPaused st); [reflexivity|].
  unfold keyHeading in Hk.
  destruct (keyIn key ["ArrowUp"; "w"; "W"]%string).
  { destruct (directionRef st); try discriminate Hk; reflexivity. }
  destruct (keyIn key ["ArrowDown"; "s"; "S"]%string).
  { destruct (directionRef st); try discriminate Hk; reflexivity. }
  destruct (keyIn key ["ArrowLeft"; "a"; "A"]%string).
  { destruct (directionRef st); try discriminate Hk; reflexivity. }
  destruct (keyIn key ["ArrowRight"; "d"; "D"]%string).
  { destruct (directionRef st); try discriminate Hk; reflexivity. }
  reflexivity.
Qed.

Lemma reverse_key_is_ignored_witness :
  exists st',
    handleKeyPress "ArrowDown"
      (sessionWith [mkPosition 10 10] (mkPosition 3 3) UP 0 0 threeObstacles)
      [] = Some (st', []) /\
    directionRef st' = UP.
Proof.
  destruct (reverse_key_is_ignored "ArrowDown"
              (sessionWith [mkPosition 10 10] (mkPosition 3 3) UP 0 0
                 threeObstacles) [] eq_refl) as (st' & Hh & Hd & _).
  exists st'; split; [exact Hh | exact Hd].
Defined.

(** C10. The reversal check reads the pending heading, not the heading the
    last tick applied.  In every Running state two movement keys pressed one
    after the other, the first a quarter turn and the second the reverse of
    the heading committed before them, are both accepted and leave the
    reverse heading committed for the next tick.  On a fresh game this gives
    a tick that moves right followed, one interval later, by a tick that
    moves left. *)
Theorem two_keys_reverse_the_heading :
  (forall st tape,
     Running st = true ->
     exists k1 k2 st1 st2,
       keyHeading k1 <> None /\
       keyHeading k2 = Some (opposite (directionRef st)) /\
       handleKeyPress k1 st tape = Some (st1, tape) /\
       handleKeyPress k2 st1 tape = Some (st2, tape) /\
       directionRef st2 = opposite (directionRef st) /\
       snake st2 = snake st /\
       Running st2 = true) /\
  (exists st0 st1 st2 st3 st4 cell,
     reachable st0 /\ Running st0 = true /\
     snake st0 = [cell] /\ directionRef st0 = RIGHT /\
     step Tick st0 [] = Some (st1, []) /\
     snake st1 = [moveHead RIGHT cell] /\
     step (KeyDown "ArrowUp") st1 [] = Some (st2, []) /\
     step (KeyDown "ArrowLeft") st2 [] = Some (st3, []) /\
     step Tick st3 [] = Some (st4, []) /\
     snake st4 = [moveHead (opposite RIGHT) (moveHead RIGHT cell)] /\
     Running st4 = true).
Proof.
  split.
  - intros st tape HR. unfold Running in HR.
    apply andb_true_iff in HR as [HR HP]. apply andb_true_iff in HR as [HS HO].
    apply negb_true_iff in HP, HO.
    assert (G : forall k1 k2 d1,
              keyHeading k1 = Some d1 ->
              keyHeading k2 = Some (opposite (directionRef st)) ->
              handleKeyPress k1 st tape =
                Some (setDirection d1 (setDirectionRef d1 st), tape) ->
              handleKeyPress k2 (setDirection d1 (setDirectionRef d1 st)) tape =
                Some (setDirection (opposite (directionRef st))
                        (setDirectionRef (opposite (directionRef st))
                           (setDirection d1 (setDirectionRef d1 st))), tape) ->
              exists k1 k2 st1 st2,
                keyHeading k1 <> None /\
                keyHeading k2 = Some (opposite (directionRef st)) /\
                handleKeyPress k1 st tape = Some (st1, tape) /\
                handleKeyPress k2 st1 tape = Some (st2, tape) /\
                directionRef st2 = opposite (directionRef st) /\
                snake st2 = snake st /\
                Running st2 = true).
    { intros k1 k2 d1 H1 H2 E1 E2.
      exists k1, k2, (setDirection d1 (setDirectionRef d1 st)).
      eexists. split; [congruence|]. split; [exact H2|].
      split; [exact E1|]. split; [exact E2|].
      split; [reflexivity|]. split; [reflexivity|].
      unfold Running; simpl. rewrite HS, HO, HP; reflexivity. }
    destruct (directionRef st) eqn:Hd.
    + apply (G "ArrowLeft"%string "ArrowDown"%string LEFT);
        try reflexivity; unfold handleKeyPress; simpl;
        rewrite ?HS, ?HO, ?HP, ?Hd; reflexivity.
    + apply (G "ArrowLeft"%string "ArrowUp"%string LEFT);
        try reflexivity; unfold handleKeyPress; simpl;
        rewrite ?HS, ?HO, ?HP, ?Hd; reflexivity.
    + apply (G "ArrowUp"%string "ArrowRight"%string UP);
        try reflexivity; unfold handleKeyPress; simpl;
        rewrite ?HS, ?HO, ?HP, ?Hd; reflexivity.
    + apply (G "ArrowUp"%string "ArrowLeft"%string UP);
        try reflexivity; unfold handleKeyPress; simpl;
        rewrite ?HS, ?HO, ?HP, ?Hd; reflexivity.
  - exists (run [(ClickStart, demoTape)] initialState).
    exists demoMoved.
    exists (run [(KeyDown "ArrowUp", [])] demoMoved).
    exists (run [(KeyDown "ArrowUp", []); (KeyDown "ArrowLeft", [])] demoMoved).
    exists (run [(KeyDown "ArrowUp", []); (KeyDown "ArrowLeft", []);
                 (Tick, [])] demoMoved).
    exists (mkPosition 10 10).
    split; [apply run_reachable, reachable_mount|].
    repeat (split; [vm_compute; reflexivity|]). vm_compute; reflexivity.
Qed.

Lemma two_keys_reverse_the_heading_witness :
  exists k1 k2 st1 st2,
    handleKeyPress k1 demoMoved [] = Some (st1, []) /\
    handleKeyPress k2 st1 [] = Some (st2, []) /\
    directionRef demoMoved = RIGHT /\ directionRef st2 = LEFT.
Proof.
  destruct (proj1 two_keys_reverse_the_heading demoMoved [] eq_refl)
    as (k1 & k2 & st1 & st2 & _ & _ & H1 & H2 & Hd & _).
  exists k1, k2, st1, st2. repeat split; assumption.
Defined.

(** * Further properties of the code *)

(** ** What an event does *)

Lemma initGame_inv : forall st tape st' tape',
  initGame st tape = Some (st', tape') ->
  exists newFood obs nid rest,
    generateRandomPosition
      ([mkPosition 10 10] ++ getSnakeBufferZone [mkPosition 10 10]) tape
      = Some (newFood, rest) /\
    generateObstacles 3 [mkPosition 10 10] newFood (obstacleIdRef st) rest
      = Some ((obs, nid), tape') /\
    st' = mkState [mkPosition 10 10] newFood RIGHT false 0 (highScore st)
            (isPaused st) (gameStarted st) INITIAL_SPEED obs RIGHT nid.
Proof.
  intros st tape st' tape'; unfold initGame, bind, ret.
  destruct (generateRandomPosition _ tape) as [[nf rest]|] eqn:Ef;
    [|discriminate].
  cbn [obstacleIdRef setFood setSpeed setScore setGameOver setDirectionRef
       setDirection setSnake].
  destruct (generateObstacles _ _ _ _ rest) as [[[obs nid] rest']|] eqn:Eo;
    [|discriminate].
  intros E; injection E as <- <-.
  exists nf, obs, nid, rest. repeat split; assumption.
Qed.

Lemma growAndReplace_inv : forall st h tape st' tape',
  growAndReplace st h tape = Some (st', tape') ->
  exists newFood obs nid rest,
    generateRandomPosition
      ((h :: snake st) ++ getSnakeBufferZone (h :: snake st)) tape
      = Some (newFood, rest) /\
    generateObstacles (Z.min (3 + (score st + 10) / 50) 8) (h :: snake st)
      newFood (obstacleIdRef st) rest = Some ((obs, nid), tape') /\
    st' = mkState (h :: snake st) newFood (direction st) (gameOver st)
            (score st + 10) (highScore st) (isPaused st) (gameStarted st)
            (Z.max MIN_SPEED (speed st - SPEED_INCREASE)) obs
            (directionRef st) nid.
Proof.
  intros st h tape st' tape'; unfold growAndReplace, bind, ret.
  destruct (generateRandomPosition _ tape) as [[nf rest]|] eqn:Ef;
    [|discriminate].
  destruct (generateObstacles _ _ _ _ rest) as [[[obs nid] rest']|] eqn:Eo;
    [|discriminate].
  intros E; injection E as <- <-.
  exists nf, obs, nid, rest. repeat split; assumption.
Qed.

Lemma handleKeyPress_effect : forall key st tape st' tape',
  handleKeyPress key st tape = Some (st', tape') ->
  effect st tape st' tape'.
Proof.
  intros key st tape st' tape'; unfold handleKeyPress.
  destruct (gameStarted st) eqn:Hs; cbn [negb].
  2: { intros E; injection E as <- <-; apply effect_none. }
  destruct (String.eqb key " ").
  { destruct (gameOver st) eqn:Ho.
    - intros E; apply effect_restart; assumption.
    - intros E; injection E as <- <-; apply effect_pause; assumption. }
  destruct (gameOver st) eqn:Ho; cbn [orb].
  { intros E; injection E as <- <-; apply effect_none. }
  destruct (isPaused st) eqn:Hp.
  { intros E; injection E as <- <-; apply effect_none. }
  assert (HR : Running st = true)
    by (unfold Running; rewrite Hs, Ho, Hp; reflexivity).
  destruct (keyIn key ["ArrowUp"; "w"; "W"]%string).
  { destruct (directionRef st) eqn:Hd; cbn [dirEqb negb];
      intros E; injection E as <- <-;
      first [ apply effect_none
            | apply effect_turn; [assumption | rewrite Hd; discriminate] ]. }
  destruct (keyIn key ["ArrowDown"; "s"; "S"]%string).
  { destruct (directionRef st) eqn:Hd; cbn [dirEqb negb];
      intros E; injection E as <- <-;
      first [ apply effect_none
            | apply effect_turn; [assumption | rewrite Hd; discriminate] ]. }
  destruct (keyIn key ["ArrowLeft"; "a"; "A"]%string).
  { destruct (directionRef st) eqn:Hd; cbn [dirEqb negb];
      intros E; injection E as <- <-;
      first [ apply effect_none
            | apply effect_turn; [assumption | rewrite Hd; discriminate] ]. }
  destruct (keyIn key ["ArrowRight"; "d"; "D"]%string).
  { destruct (directionRef st) eqn:Hd; cbn [dirEqb negb];
      intros E; injection E as <- <-;
      first [ apply effect_none
            | apply effect_turn; [assumption | rewrite Hd; discriminate] ]. }
  intros E; injection E as <- <-; apply effect_none.
Qed.

Lemma moveSnake_effect : forall st tape st' tape',
  moveSnake st tape = Some (st', tape') -> effect st tape st' tape'.
Proof.
  intros st tape st' tape' HM.
  destruct (Running st) eqn:HR.
  2: { rewrite (moveSnake_not_running st tape HR) in HM.
       injection HM as <- <-; apply effect_none. }
  destruct (newHead st) as [h|] eqn:HN.
  2: { rewrite (moveSnake_empty st tape HN) in HM.
       injection HM as <- <-; apply effect_none. }
  rewrite (moveSnake_running st h tape HR HN) in HM.
  destruct (collides st h) eqn:Hc.
  { injection HM as <- <-; eapply effect_die; eassumption. }
  destruct (samePos h (food st)) eqn:Hf.
  - apply samePos_eq in Hf. eapply effect_eat; eassumption.
  - apply samePos_neq in Hf. injection HM as <- <-.
    eapply effect_move; eassumption.
Qed.

Lemma step_effect : forall e st tape st' tape',
  step e st tape = Some (st', tape') -> effect st tape st' tape'.
Proof.
  intros e st tape st' tape' Hstep.
  destruct e as [|key| | |]; cbn [step] in Hstep.
  - apply moveSnake_effect; assumption.
  - eapply handleKeyPress_effect; eassumption.
  - destruct (gameStarted st) eqn:Hs; cbn [negb] in Hstep.
    + injection Hstep as <- <-; apply effect_none.
    + apply effect_start; assumption.
  - destruct (gameOver st) eqn:Ho.
    + apply effect_restart; assumption.
    + injection Hstep as <- <-; apply effect_none.
  - destruct (gameOver st) eqn:Ho.
    + injection Hstep as <- <-; apply effect_exit; assumption.
    + injection Hstep as <- <-; apply effect_none.
Qed.

(** Induction over reachable states, one branch of the handlers at a time. *)
Lemma reachable_effect_ind : forall P : State -> Prop,
  P initialState ->
  (forall st tape st' tape',
     reachable st -> P st -> effect st tape st' tape' -> P st') ->
  forall st, reachable st -> P st.
Proof.
  intros P H0 Hs st Hr.
  induction Hr as [|e st tape st' tape' Hr IH Hstep]; [assumption|].
  eapply Hs; [exact Hr | exact IH | eapply step_effect; eassumption].
Qed.

(** ** The buffer zone *)

Lemma offset_range : forall d, In d [-1; 0; 1] <-> Z.abs d <= 1.
Proof. intros d; simpl; lia. Qed.

Lemma bufferZone_elim : forall l c,
  In c (getSnakeBufferZone l) ->
  inBounds c = true /\
  exists p, In p l /\ Z.abs (x c - x p) <= 1 /\ Z.abs (y c - y p) <= 1.
Proof.
  intros l c; unfold getSnakeBufferZone.
  rewrite in_flat_map; intros (p & Hp & H).
  apply in_flat_map in H as (dx & Hdx & H).
  apply in_flat_map in H as (dy & Hdy & H).
  apply offset_range in Hdx, Hdy.
  match type of H with
  | In _ (if ?b then _ else _) => destruct b eqn:Hb; [|destruct H]
  end.
  destruct H as [<-|[]]. split; [exact Hb|].
  exists p; split; [assumption|]. cbn [x y]. lia.
Qed.

Lemma bufferZone_intro : forall l c p,
  inBounds c = true -> In p l ->
  Z.abs (x c - x p) <= 1 -> Z.abs (y c - y p) <= 1 ->
  In c (getSnakeBufferZone l).
Proof.
  intros l c p Hc Hp Hx Hy; unfold getSnakeBufferZone.
  apply in_flat_map; exists p; split; [assumption|].
  apply in_flat_map; exists (x c - x p); split; [apply offset_range; lia|].
  apply in_flat_map; exists (y c - y p); split; [apply offset_range; lia|].
  replace (x p + (x c - x p)) with (x c) by lia.
  replace (y p + (y c - y p)) with (y c) by lia.
  cbn [x y]. unfold inBounds in Hc. rewrite Hc.
  left; destruct c; reflexivity.
Qed.

(** X1. A cell lies in the buffer zone of a list of positions exactly when it
    is on the board and within one step, diagonals included, of one of the
    positions. *)
Theorem bufferZone_cells : forall l c,
  In c (getSnakeBufferZone l) <->
  inBounds c = true /\
  exists p, In p l /\ Z.abs (x c - x p) <= 1 /\ Z.abs (y c - y p) <= 1.
Proof.
  intros l c; split.
  - apply bufferZone_elim.
  - intros (Hc & p & Hp & Hx & Hy). eapply bufferZone_intro; eassumption.
Qed.

(** X2. The buffer zone holds at most nine cells per position, and exactly
    nine for a single position that is not on the border of the board. *)
Theorem bufferZone_size :
  (forall l,
     (List.length (getSnakeBufferZone l) <= 9 * List.length l)%nat) /\
  (forall p,
     1 <= x p <= GRID_SIZE - 2 -> 1 <= y p <= GRID_SIZE - 2 ->
     List.length (getSnakeBufferZone [p]) = 9%nat).
Proof.
  split; [apply getSnakeBufferZone_length|].
  intros [px py]; unfold GRID_SIZE; cbn [x y]; intros Hx Hy.
  unfold getSnakeBufferZone, GRID_SIZE; cbn [flat_map x y app].
  repeat match goal with
  | |- context [if ?c then _ else _] =>
      replace c with true
        by (symmetry; rewrite !andb_true_iff, !Z.leb_le, !Z.ltb_lt; lia)
  end.
  reflexivity.
Qed.

Lemma bufferZone_size_witness :
  List.length (getSnakeBufferZone [mkPosition 10 10]) = 9%nat.
Proof.
  apply (proj2 bufferZone_size (mkPosition 10 10));
    unfold GRID_SIZE; simpl; lia.
Defined.

Lemma moveHead_near : forall d p,
  Z.abs (x (moveHead d p) - x p) <= 1 /\ Z.abs (y (moveHead d p) - y p) <= 1.
Proof. intros d p; destruct d; cbn [moveHead x y]; lia. Qed.

Lemma moveHead_adjacent : forall d p, adjacent (moveHead d p) p.
Proof. intros d p; unfold adjacent; destruct d; cbn [moveHead x y]; lia. Qed.

Lemma placed_next_cell_clear : forall st h,
  placed st ->
  newHead st = Some h ->
  inBounds h = true ->
  ~ In h (map position (obstacles st)) /\ h <> food st /\ eats st = false.
Proof.
  intros st h (_ & Hfb & _ & _ & Hobs) HN Hb.
  assert (Hin : In h (getSnakeBufferZone (snake st))).
  { unfold newHead in HN.
    destruct (snake st) as [|first tl]; [discriminate|].
    injection HN as <-.
    destruct (moveHead_near (directionRef st) first) as [Hx Hy].
    apply (bufferZone_intro _ _ first); auto. left; reflexivity. }
  assert (Hf : h <> food st) by (intros ->; contradiction).
  split; [|split; [exact Hf|]].
  - intros Ho. apply in_map_iff in Ho as (o & <- & Ho).
    destruct (Hobs o Ho) as (_ & Hn & _). contradiction.
  - unfold eats. rewrite HN.
    apply samePos_neq in Hf. rewrite Hf.
    rewrite andb_false_r, andb_false_r. reflexivity.
Qed.

(** X3. The purpose of the buffer zone: in a state left by a placement, the
    cell the next tick moves to, if it is on the board, holds neither an
    obstacle nor the food, whatever heading has been committed meanwhile; so
    the first tick after a placement never eats and never hits an obstacle. *)
Theorem next_cell_after_placement_is_clear : forall st h,
  placed st ->
  newHead st = Some h ->
  inBounds h = true ->
  ~ In h (map position (obstacles st)) /\ h <> food st /\ eats st = false.
Proof. exact placed_next_cell_clear. Qed.

Lemma demoStarted_placed : placed demoStarted.
Proof.
  assert (E : initGame (setGameStarted true initialState) demoTape
              = Some (demoStarted, [])) by (vm_compute; reflexivity).
  apply initGame_spec in E. apply E.
Qed.

Lemma next_cell_after_placement_is_clear_witness :
  ~ In (mkPosition 11 10) (map position (obstacles demoStarted)) /\
  mkPosition 11 10 <> food demoStarted /\
  eats demoStarted = false.
Proof.
  apply (next_cell_after_placement_is_clear demoStarted (mkPosition 11 10)).
  - exact demoStarted_placed.
  - reflexivity.
  - reflexivity.
Defined.

(** ** Obstacle ids and logos *)

Lemma generateObstaclesLoop_tags :
  forall n i excl acc nid tape obs nid' rest,
  generateObstaclesLoop n i excl acc nid tape = Some ((obs, nid'), rest) ->
  exists new,
    obs = acc ++ new /\
    map id new = map (fun j => nid + Z.of_nat j) (seq 0 n) /\
    map logo new =
      map (fun j => nth (Z.to_nat ((i + Z.of_nat j) mod 2)) logos acmLogo)
          (seq 0 n) /\
    nid' = nid + Z.of_nat n.
Proof.
  induction n as [|n IH]; intros i excl acc nid tape obs nid' rest.
  - cbn [generateObstaclesLoop]; unfold ret.
    intros E; injection E as <- <- _. exists [].
    rewrite app_nil_r; repeat split; simpl; lia.
  - cbn [generateObstaclesLoop]; unfold bind.
    destruct (generateRandomPosition _ tape) as [[pos rest1]|];
      [|discriminate].
    intros Hloop. apply IH in Hloop as (new & -> & Hid & Hlogo & ->).
    eexists (_ :: new). split; [rewrite <- app_assoc; reflexivity|].
    cbn [map seq id logo].
    rewrite <- seq_shift, !map_map, Hid, Hlogo.
    split; [|split; [|lia]].
    + f_equal; [simpl; lia|]. apply map_ext; intros j; lia.
    + f_equal; [rewrite Z.add_0_r; reflexivity|].
      apply map_ext; intros j. do 3 f_equal. lia.
Qed.

Lemma ids_NoDup : forall nid n,
  NoDup (map (fun j => nid + Z.of_nat j) (seq 0 n)).
Proof.
  intros nid n. generalize 0%nat.
  induction n as [|n IH]; intros a; cbn [seq map]; constructor; [|apply IH].
  intros H. apply in_map_iff in H as (j & Hj & Hin).
  apply in_seq in Hin. lia.
Qed.

Lemma parity_logo : forall j,
  nth (Z.to_nat ((0 + Z.of_nat j) mod 2)) logos acmLogo
  = if Nat.even j then acmLogo else googleLogo.
Proof.
  intros j. destruct (Nat.even j) eqn:E.
  - apply Nat.even_spec in E as [m ->].
    replace ((0 + Z.of_nat (2 * m)) mod 2) with 0
      by (Z.div_mod_to_equations; lia).
    reflexivity.
  - assert (O : Nat.odd j = true) by (rewrite <- Nat.negb_even, E; reflexivity).
    apply Nat.odd_spec in O as [m ->].
    replace ((0 + Z.of_nat (2 * m + 1)) mod 2) with 1
      by (Z.div_mod_to_equations; lia).
    reflexivity.
Qed.

Lemma generateObstacles_tags : forall count sn fd nid tape obs nid' rest,
  generateObstacles count sn fd nid tape = Some ((obs, nid'), rest) ->
  map id obs = map (fun j => nid + Z.of_nat j) (seq 0 (Z.to_nat count)) /\
  map logo obs =
    map (fun j => if Nat.even j then acmLogo else googleLogo)
        (seq 0 (Z.to_nat count)) /\
  nid' = nid + Z.of_nat (Z.to_nat count) /\
  List.length obs = Z.to_nat count.
Proof.
  intros count sn fd nid tape obs nid' rest E.
  pose proof (generateObstacles_spec _ _ _ _ _ _ _ _ E) as (_ & _ & Hlen).
  unfold generateObstacles in E.
  apply generateObstaclesLoop_tags in E as (new & -> & Hid & Hlogo & ->).
  cbn [app]. rewrite Hid, Hlogo. repeat split; try assumption.
  apply map_ext; intros j; apply parity_logo.
Qed.

(** X4. [generateObstacles] numbers the obstacles it creates consecutively
    from the counter it is given, so their ids are pairwise distinct, and
    hands back the counter advanced by the number of obstacles; a count of
    zero or less creates nothing and leaves the counter alone. *)
Theorem generateObstacles_ids : forall count sn fd nid tape obs nid' rest,
  generateObstacles count sn fd nid tape = Some ((obs, nid'), rest) ->
  map id obs = map (fun j => nid + Z.of_nat j) (seq 0 (Z.to_nat count)) /\
  NoDup (map id obs) /\
  nid' = nid + Z.of_nat (List.length obs) /\
  (count <= 0 -> obs = [] /\ nid' = nid /\ rest = tape).
Proof.
  intros count sn fd nid tape obs nid' rest E.
  pose proof (generateObstacles_tags _ _ _ _ _ _ _ _ E)
    as (Hid & _ & Hn & Hlen).
  split; [exact Hid|]. split; [rewrite Hid; apply ids_NoDup|].
  split; [rewrite Hlen; exact Hn|].
  intros Hc. unfold generateObstacles in E.
  replace (Z.to_nat count) with 0%nat in E by lia.
  cbn [generateObstaclesLoop] in E; unfold ret in E.
  injection E as <- <- <-. auto.
Qed.

Lemma generateObstacles_ids_witness :
  exists obs nid' rest,
    generateObstacles 3 [mkPosition 10 10] (mkPosition 12 10) 7
      [0 # 15; 0 # 15; 0 # 15; 1 # 15; 0 # 15; 2 # 15]%Q
      = Some ((obs, nid'), rest) /\
    map id obs = [7; 8; 9] /\ nid' = 10.
Proof.
  destruct (generateObstacles 3 [mkPosition 10 10] (mkPosition 12 10) 7
              [0 # 15; 0 # 15; 0 # 15; 1 # 15; 0 # 15; 2 # 15]%Q)
    as [[[obs nid'] rest]|] eqn:E; [|vm_compute in E; discriminate E].
  exists obs, nid', rest; split; [reflexivity|].
  destruct (generateObstacles_ids _ _ _ _ _ _ _ _ E) as (Hid & _ & Hn & _).
  split; [exact Hid|].
  rewrite Hn, <- (length_map id), Hid. reflexivity.
Defined.

(** ** Invariants of reachable states *)

Lemma Running_flags : forall st,
  Running st = true ->
  gameStarted st = true /\ gameOver st = false /\ isPaused st = false.
Proof.
  intros st; unfold Running.
  destruct (gameStarted st), (gameOver st), (isPaused st); simpl;
    intros; try discriminate; auto.
Qed.

Lemma collides_false : forall st h,
  collides st h = false ->
  inBounds h = true /\ ~ In h (snake st) /\
  ~ In h (map position (obstacles st)).
Proof.
  intros st h; unfold collides, outOfBounds, hitsSnake, hitsObstacle.
  rewrite !orb_false_iff, negb_false_iff.
  intros [[Hb Hs] Ho]. split; [assumption|]. split.
  - apply some_not_In; assumption.
  - intros H; apply some_obstacle_In in H; congruence.
Qed.

Lemma endGame_eq : forall st,
  endGame st =
  mkState (snake st) (food st) (direction st) true (score st)
    (if score st >? highScore st then score st else highScore st)
    (isPaused st) (gameStarted st) (speed st) (obstacles st)
    (directionRef st) (obstacleIdRef st).
Proof.
  intros st; unfold endGame; simpl.
  destruct (score st >? highScore st); reflexivity.
Qed.

(** Splits an [effect] into its branches and opens up the states built by
    [initGame], by the food branch and by [endGame]. *)
Ltac effect_cases H :=
  let nf := fresh "newFood" in
  let obs := fresh "obs" in
  let nid := fresh "nid" in
  let rest := fresh "rest" in
  let Hfood := fresh "Hfood" in
  let Hobs := fresh "Hobs" in
  destruct H as
    [ | st' tape' Hidle Hinit | st' tape' Hover Hinit
      | h st' tape' HR HN Hc Hf Hgrow | h HR HN Hc | h HR HN Hc Hf
      | Hstarted Hnotover | d HR Hd | Hover ];
  [ | apply initGame_inv in Hinit
        as (nf & obs & nid & rest & Hfood & Hobs & ->)
    | apply initGame_inv in Hinit
        as (nf & obs & nid & rest & Hfood & Hobs & ->)
    | apply growAndReplace_inv in Hgrow
        as (nf & obs & nid & rest & Hfood & Hobs & ->)
    | rewrite endGame_eq | | | | ].

Lemma reachable_flags : forall st,
  reachable st ->
  (gameOver st = true -> gameStarted st = true /\ isPaused st = false) /\
  (isPaused st = true -> gameStarted st = true).
Proof.
  apply reachable_effect_ind.
  - split; discriminate.
  - intros st tape st' tape' _ [IH1 IH2] Heff.
    effect_cases Heff; cbn [gameOver gameStarted isPaused setGameStarted
      setSnake setIsPaused setDirection setDirectionRef exitGame setGameOver];
      try (apply Running_flags in HR as (Hs & Ho & Hp));
      destruct (gameOver st) eqn:?, (gameStarted st) eqn:?,
               (isPaused st) eqn:?; simpl; intuition congruence.
Qed.

(** X15. The [direction] state cell always holds the heading stored in
    [directionRef]: what is rendered as the heading is what the next tick
    applies. *)
Theorem direction_mirrors_ref : forall st,
  reachable st -> direction st = directionRef st.
Proof.
  apply reachable_effect_ind; [reflexivity|].
  intros st tape st' tape' _ IH Heff.
  effect_cases Heff; cbn [direction directionRef setGameStarted setSnake
    setIsPaused setDirection setDirectionRef exitGame setGameOver]; auto.
Qed.

Lemma connected_app_l : forall l l', connected (l ++ l') -> connected l.
Proof.
  induction l as [|a [|b l] IH]; intros l' H; simpl; auto.
  simpl in H. destruct H as [Hab H]. split; [assumption|].
  apply (IH l'). exact H.
Qed.

Lemma removelast_prefix : forall (h : Position) l,
  exists z, h :: l = removelast (h :: l) ++ [z].
Proof.
  intros h l. exists (last (h :: l) h).
  apply app_removelast_last. discriminate.
Qed.

Lemma removelast_incl : forall (h : Position) l q,
  In q (removelast (h :: l)) -> In q (h :: l).
Proof.
  intros h l q Hq. destruct (removelast_prefix h l) as [z E].
  rewrite E. apply in_or_app; left; assumption.
Qed.

Lemma reachable_snake : forall st,
  reachable st ->
  snake st <> [] /\ NoDup (snake st) /\
  Forall (fun c => inBounds c = true) (snake st) /\
  connected (snake st).
Proof.
  apply reachable_effect_ind.
  - simpl. split; [discriminate|]. split; [repeat constructor; auto|].
    split; [repeat constructor|exact I].
  - intros st tape st' tape' _ (Hne & Hnd & Hin & Hcon) Heff.
    assert (Init : [mkPosition 10 10] <> [] /\ NoDup [mkPosition 10 10] /\
              Forall (fun c => inBounds c = true) [mkPosition 10 10] /\
              connected [mkPosition 10 10]).
    { split; [discriminate|]. split; [repeat constructor; auto|].
      split; [repeat constructor|exact I]. }
    assert (Grown : forall h, newHead st = Some h -> collides st h = false ->
              h :: snake st <> [] /\ NoDup (h :: snake st) /\
              Forall (fun c => inBounds c = true) (h :: snake st) /\
              connected (h :: snake st)).
    { intros h HN Hc. apply collides_false in Hc as (Hb & Hs & _).
      split; [discriminate|]. split; [constructor; assumption|].
      split; [constructor; assumption|].
      unfold newHead in HN. destruct (snake st) as [|first tl] eqn:E;
        [discriminate|]. injection HN as <-.
      split; [apply moveHead_adjacent|assumption]. }
    effect_cases Heff; cbn [snake setGameStarted setSnake setIsPaused
      setDirection setDirectionRef exitGame setGameOver]; auto.
    destruct (Grown h HN Hc) as (_ & Gnd & Gin & Gcon).
    destruct (removelast_prefix h (snake st)) as [z E].
    rewrite E in Gnd, Gin, Gcon.
    split.
    { destruct (snake st) as [|a l]; [contradiction|]. discriminate. }
    split; [apply NoDup_app_remove_r in Gnd; assumption|].
    split; [apply Forall_app in Gin; apply Gin|].
    eapply connected_app_l; eassumption.
Qed.

Lemma placement_apart : forall sn tape newFood rest count nid obs nid' tape',
  generateRandomPosition (sn ++ getSnakeBufferZone sn) tape
    = Some (newFood, rest) ->
  generateObstacles count sn newFood nid rest = Some ((obs, nid'), tape') ->
  ~ In newFood sn /\
  (forall q, In q sn -> ~ In q (map position obs)) /\
  ~ In newFood (map position obs) /\
  NoDup (map position obs).
Proof.
  intros sn tape nf rest count nid obs nid' tape' Hf Ho.
  apply generateRandomPosition_not_excluded in Hf as [Hf _].
  apply generateObstacles_spec in Ho as (Hnd & Hq & _).
  split; [intros H; apply Hf, in_or_app; left; assumption|].
  split; [intros q Hs Hin; destruct (Hq q Hin) as (Hn & _); contradiction|].
  split; [intros Hin; destruct (Hq _ Hin) as (_ & _ & Hne); congruence|].
  assumption.
Qed.

(** X8. In every reachable state, not only right after a placement, the food
    is on no snake cell and on no obstacle, no snake cell is on an obstacle,
    and the obstacles are on pairwise distinct cells. *)
Theorem cells_stay_apart : forall st,
  reachable st ->
  ~ In (food st) (snake st) /\
  (forall q, In q (snake st) -> ~ In q (map position (obstacles st))) /\
  ~ In (food st) (map position (obstacles st)) /\
  NoDup (map position (obstacles st)).
Proof.
  apply reachable_effect_ind.
  - simpl. split; [intros [H|[]]; discriminate|].
    split; [intros q _ []|]. split; [intros []|constructor].
  - intros st tape st' tape' _ (Hfs & Hso & Hfo & Hnd) Heff.
    effect_cases Heff; cbn [snake food obstacles setGameStarted setSnake
      setIsPaused setDirection setDirectionRef exitGame setGameOver]; auto.
    + eapply placement_apart; eassumption.
    + eapply placement_apart; eassumption.
    + eapply placement_apart; eassumption.
    + apply collides_false in Hc as (_ & _ & Hho).
      split; [|split; [|auto]].
      * intros Hin. apply removelast_incl in Hin as [->|Hin]; auto.
      * intros q Hin. apply removelast_incl in Hin as [<-|Hin]; auto.
Qed.

(** X9. In every reachable state the score is ten times the number of
    segments the snake has grown by: score = 10 * (length - 1). *)
Theorem length_tracks_score : forall st,
  reachable st ->
  score st = 10 * (Z.of_nat (List.length (snake st)) - 1).
Proof.
  apply reachable_effect_ind; [reflexivity|].
  intros st tape st' tape' _ IH Heff.
  effect_cases Heff; cbn [snake score setGameStarted setSnake setIsPaused
    setDirection setDirectionRef exitGame setGameOver List.length]; auto;
    try lia.
  rewrite length_removelast_cons. exact IH.
Qed.

Lemma reachable_speed : forall st,
  reachable st ->
  speed st = Z.max MIN_SPEED (INITIAL_SPEED - score st / 2).
Proof.
  intros st Hr. pose proof Hr as Hr'. revert st Hr' Hr.
  apply (reachable_effect_ind
           (fun st => reachable st ->
                      speed st = Z.max MIN_SPEED (INITIAL_SPEED - score st / 2))).
  - intros _; reflexivity.
  - intros st tape st' tape' Hr IH Heff _. specialize (IH Hr).
    destruct (reachable_good st Hr) as ((k & Hk & Hsc) & _).
    effect_cases Heff; cbn [speed score setGameStarted setSnake setIsPaused
      setDirection setDirectionRef exitGame setGameOver]; auto.
    rewrite IH, Hsc. unfold MIN_SPEED, INITIAL_SPEED, SPEED_INCREASE.
    Z.div_mod_to_equations; lia.
Qed.

Lemma reachable_over_score : forall st,
  reachable st -> gameOver st = true -> score st <= highScore st.
Proof.
  apply (reachable_effect_ind
           (fun st => gameOver st = true -> score st <= highScore st)).
  - discriminate.
  - intros st tape st' tape' _ IH Heff.
    effect_cases Heff; cbn [gameOver score highScore setGameStarted setSnake
      setIsPaused setDirection setDirectionRef exitGame setGameOver]; auto;
      try discriminate.
    + apply Running_flags in HR as (_ & Ho & _). congruence.
    + intros _. destruct (score st >? highScore st) eqn:E; lia.
Qed.

Lemma new_ids_range : forall (obs : list Obstacle) nid n o,
  map id obs = map (fun j => nid + Z.of_nat j) (seq 0 n) ->
  In o obs -> nid <= id o < nid + Z.of_nat n.
Proof.
  intros obs nid n o Hid Ho.
  apply (in_map id) in Ho. rewrite Hid in Ho.
  apply in_map_iff in Ho as (j & <- & Hj). apply in_seq in Hj. lia.
Qed.

Lemma reachable_ids : forall st,
  reachable st ->
  0 <= obstacleIdRef st /\
  NoDup (map id (obstacles st)) /\
  (forall o, In o (obstacles st) -> 0 <= id o < obstacleIdRef st).
Proof.
  apply reachable_effect_ind.
  - simpl. split; [lia|]. split; [constructor|intros o []].
  - intros st tape st' tape' _ (H0 & Hnd & Hlt) Heff.
    assert (G : forall count sn fd rest obs nid tape',
              generateObstacles count sn fd (obstacleIdRef st) rest
                = Some ((obs, nid), tape') ->
              0 <= nid /\ NoDup (map id obs) /\
              (forall o, In o obs -> 0 <= id o < nid)).
    { intros count sn fd rest obs nid tp Ho.
      apply generateObstacles_tags in Ho as (Hid & _ & -> & _).
      split; [lia|]. split; [rewrite Hid; apply ids_NoDup|].
      intros o Hin. pose proof (new_ids_range _ _ _ _ Hid Hin). lia. }
    effect_cases Heff; cbn [obstacles obstacleIdRef setGameStarted setSnake
      setIsPaused setDirection setDirectionRef exitGame setGameOver]; auto;
      eapply G; eassumption.
Qed.

Lemma reachable_logos : forall st,
  reachable st ->
  map logo (obstacles st) =
  map (fun j => if Nat.even j then acmLogo else googleLogo)
      (seq 0 (List.length (obstacles st))).
Proof.
  apply reachable_effect_ind; [reflexivity|].
  intros st tape st' tape' _ IH Heff.
  assert (G : forall count sn fd nid0 rest obs nid tape',
            generateObstacles count sn fd nid0 rest
              = Some ((obs, nid), tape') ->
            map logo obs =
            map (fun j => if Nat.even j then acmLogo else googleLogo)
                (seq 0 (List.length obs))).
  { intros count sn fd nid0 rest obs nid tp Ho.
    apply generateObstacles_tags in Ho as (_ & Hl & _ & ->). exact Hl. }
  effect_cases Heff; cbn [obstacles setGameStarted setSnake
    setIsPaused setDirection setDirectionRef exitGame setGameOver]; auto;
    eapply G; eassumption.
Qed.

(** ** What holds in every reachable state *)

(** X5. Obstacle ids are never reused: in every reachable state the ids of
    the obstacles are pairwise distinct and below the counter, the counter
    never decreases, and every obstacle an event creates gets an id at or
    above the counter of before the event. *)
Theorem obstacle_ids_never_reused :
  (forall st,
     reachable st ->
     NoDup (map id (obstacles st)) /\
     (forall o, In o (obstacles st) -> 0 <= id o < obstacleIdRef st)) /\
  (forall e st tape st' tape',
     step e st tape = Some (st', tape') ->
     obstacleIdRef st <= obstacleIdRef st' /\
     (forall o, In o (obstacles st') ->
        In o (obstacles st) \/ obstacleIdRef st <= id o)).
Proof.
  split.
  - intros st Hr. apply (reachable_ids st Hr).
  - intros e st tape st' tape' Hstep. apply step_effect in Hstep.
    assert (G : forall count sn fd rest obs nid tape',
              generateObstacles count sn fd (obstacleIdRef st) rest
                = Some ((obs, nid), tape') ->
              obstacleIdRef st <= nid /\
              (forall o, In o obs ->
                 In o (obstacles st) \/ obstacleIdRef st <= id o)).
    { intros count sn fd rest obs nid tp Ho.
      apply generateObstacles_tags in Ho as (Hid & _ & -> & _).
      split; [lia|]. intros o Hin; right.
      pose proof (new_ids_range _ _ _ _ Hid Hin). lia. }
    effect_cases Hstep; cbn [obstacles obstacleIdRef setGameStarted setSnake
      setIsPaused setDirection setDirectionRef exitGame setGameOver];
      try (eapply G; eassumption); split; auto; lia.
Qed.

Lemma obstacle_ids_never_reused_witness :
  NoDup (map id (obstacles demoMoved)) /\
  (forall o, In o (obstacles demoMoved) ->
     0 <= id o < obstacleIdRef demoMoved).
Proof.
  apply (proj1 obstacle_ids_never_reused demoMoved demoMoved_reachable).
Defined.

(** X6. Obstacles carry the ACM and Google logos in turn, the first one the
    ACM logo; no obstacle of a reachable state ever shows the Microsoft logo,
    which is the food's. *)
Theorem obstacle_logos_alternate : forall st,
  reachable st ->
  map logo (obstacles st) =
    map (fun j => if Nat.even j then acmLogo else googleLogo)
        (seq 0 (List.length (obstacles st))) /\
  ~ In microsoftLogo (map logo (obstacles st)).
Proof.
  intros st Hr. pose proof (reachable_logos st Hr) as H.
  split; [exact H|]. rewrite H. intros Hin.
  apply in_map_iff in Hin as (j & Hj & _).
  destruct (Nat.even j); discriminate.
Qed.

Lemma obstacle_logos_alternate_witness :
  map logo (obstacles demoMoved) = [acmLogo; googleLogo; acmLogo].
Proof.
  rewrite (proj1 (obstacle_logos_alternate demoMoved demoMoved_reachable)).
  reflexivity.
Defined.

(** X7. In every reachable state the snake is a simple path on the board: it
    is not empty, no two of its segments share a cell, every segment is in
    bounds, and each segment is one unit step from the next. *)
Theorem snake_is_a_simple_path : forall st,
  reachable st ->
  snake st <> [] /\ NoDup (snake st) /\
  Forall (fun c => inBounds c = true) (snake st) /\
  connected (snake st).
Proof. exact reachable_snake. Qed.

Lemma snake_is_a_simple_path_witness :
  snake (run [(Tick, eatTape)] demoMoved) <> [] /\
  NoDup (snake (run [(Tick, eatTape)] demoMoved)) /\
  Forall (fun c => inBounds c = true) (snake (run [(Tick, eatTape)] demoMoved)) /\
  connected (snake (run [(Tick, eatTape)] demoMoved)).
Proof.
  apply snake_is_a_simple_path.
  apply run_reachable, demoMoved_reachable.
Defined.

Lemma cells_stay_apart_witness :
  ~ In (food demoMoved) (snake demoMoved) /\
  (forall q, In q (snake demoMoved) ->
     ~ In q (map position (obstacles demoMoved))) /\
  ~ In (food demoMoved) (map position (obstacles demoMoved)) /\
  NoDup (map position (obstacles demoMoved)).
Proof. apply cells_stay_apart, demoMoved_reachable. Defined.

Lemma length_tracks_score_witness :
  score (run [(Tick, eatTape)] demoMoved) = 10 /\
  List.length (snake (run [(Tick, eatTape)] demoMoved)) = 2%nat.
Proof.
  split; [|reflexivity].
  rewrite (length_tracks_score (run [(Tick, eatTape)] demoMoved)
             (run_reachable _ _ demoMoved_reachable)).
  reflexivity.
Defined.

(** X10. In every reachable state the speed is a function of the score:
    max(MIN_SPEED, INITIAL_SPEED - score / 2); the floor of 50 is reached at
    score 200 and kept from there on. *)
Theorem speed_tracks_score : forall st,
  reachable st ->
  speed st = Z.max MIN_SPEED (INITIAL_SPEED - score st / 2) /\
  (200 <= score st -> speed st = MIN_SPEED).
Proof.
  intros st Hr. pose proof (reachable_speed st Hr) as H.
  split; [exact H|]. intros Hs. rewrite H.
  unfold MIN_SPEED, INITIAL_SPEED. Z.div_mod_to_equations; lia.
Qed.

Lemma speed_tracks_score_witness :
  speed (run [(Tick, eatTape)] demoMoved) = 145.
Proof.
  rewrite (proj1 (speed_tracks_score (run [(Tick, eatTape)] demoMoved)
                    (run_reachable _ _ demoMoved_reachable))).
  reflexivity.
Defined.

(** ** Session states and overlays *)

(** X11. The three flags of a reachable state encode exactly one of four
    session states: either the game is running and no overlay is rendered,
    or exactly one of the start screen, the pause overlay and the game-over
    overlay is.  In particular a finished game is a started, unpaused one. *)
Theorem one_session_state_at_a_time : forall st,
  reachable st ->
  (Nat.b2n (Running st) + Nat.b2n (showStartScreen st) +
   Nat.b2n (showPauseOverlay st) + Nat.b2n (showGameOverOverlay st) = 1)%nat /\
  (gameOver st = true -> gameStarted st = true /\ isPaused st = false) /\
  (isPaused st = true -> gameStarted st = true).
Proof.
  intros st Hr. destruct (reachable_flags st Hr) as [H1 H2].
  split; [|split; assumption].
  unfold Running, showStartScreen, showPauseOverlay, showGameOverOverlay.
  destruct (gameOver st), (gameStarted st), (isPaused st); simpl;
    try reflexivity;
    first [ destruct (H1 eq_refl); discriminate | specialize (H2 eq_refl);
            discriminate ].
Qed.

Lemma one_session_state_at_a_time_witness :
  (Nat.b2n (Running demoMoved) + Nat.b2n (showStartScreen demoMoved) +
   Nat.b2n (showPauseOverlay demoMoved) +
   Nat.b2n (showGameOverOverlay demoMoved) = 1)%nat.
Proof.
  apply (proj1 (one_session_state_at_a_time demoMoved demoMoved_reachable)).
Defined.

(** X12. When a game is over the score never exceeds [highScore], so the
    NEW HIGH SCORE line is rendered exactly when the game is over with a
    positive score equal to [highScore]; a score that only ties an earlier
    best shows it too. *)
Theorem new_high_score_line : forall st,
  reachable st ->
  (gameOver st = true -> score st <= highScore st) /\
  (showNewHighScore st = true <->
   gameOver st = true /\ score st = highScore st /\ 0 < score st).
Proof.
  intros st Hr. pose proof (reachable_over_score st Hr) as H.
  split; [exact H|]. unfold showNewHighScore.
  rewrite !andb_true_iff, Z.geb_le, Z.gtb_lt. split.
  - intros (Ho & Hge & Hpos). specialize (H Ho). repeat split; auto; lia.
  - intros (Ho & He & Hpos). repeat split; auto; lia.
Qed.

Lemma new_high_score_line_witness :
  showNewHighScore (run [(Tick, eatTape); (Tick, []); (Tick, []); (Tick, [])]
                      demoMoved) = true.
Proof.
  apply (proj2 (new_high_score_line _
                  (run_reachable
                     [(Tick, eatTape); (Tick, []); (Tick, []); (Tick, [])]
                     _ demoMoved_reachable))).
  vm_compute. repeat split; reflexivity.
Defined.

(** X13. Outside the Running state the game is frozen: a tick and every key
    other than the space bar leave the state exactly as it is. *)
Theorem frozen_when_not_running : forall st tape,
  Running st = false ->
  moveSnake st tape = Some (st, tape) /\
  (forall key, key <> " "%string ->
     handleKeyPress key st tape = Some (st, tape)).
Proof.
  intros st tape HR. split; [apply moveSnake_not_running; assumption|].
  intros key Hk. apply String.eqb_neq in Hk.
  unfold handleKeyPress, Running in *. rewrite Hk.
  destruct (gameStarted st); [|reflexivity].
  destruct (gameOver st); [reflexivity|].
  destruct (isPaused st); [reflexivity|discriminate].
Qed.

Lemma frozen_when_not_running_witness :
  moveSnake (setIsPaused true demoMoved) eatTape
    = Some (setIsPaused true demoMoved, eatTape) /\
  handleKeyPress "ArrowUp" (setIsPaused true demoMoved) []
    = Some (setIsPaused true demoMoved, []).
Proof.
  destruct (frozen_when_not_running (setIsPaused true demoMoved) eatTape
              eq_refl) as [H1 _].
  destruct (frozen_when_not_running (setIsPaused true demoMoved) []
              eq_refl) as [_ H2].
  split; [exact H1|]. apply H2. discriminate.
Defined.

(** X14. In a started game that is not over the space bar toggles between
    Running and Paused and changes nothing else: pressing it twice gives back
    the state of before. *)
Theorem space_toggles_pause : forall st tape,
  gameStarted st = true -> gameOver st = false ->
  exists st1,
    handleKeyPress " " st tape = Some (st1, tape) /\
    Running st1 = negb (Running st) /\
    handleKeyPress " " st1 tape = Some (st, tape).
Proof.
  intros st tape Hs Ho. exists (setIsPaused (negb (isPaused st)) st).
  unfold handleKeyPress, Running; cbn [gameStarted gameOver isPaused
    setIsPaused]. rewrite Hs, Ho. cbn [negb String.eqb andb].
  split; [reflexivity|]. split.
  - destruct (isPaused st); reflexivity.
  - simpl. unfold ret. rewrite negb_involutive.
    destruct st; reflexivity.
Qed.

Lemma space_toggles_pause_witness :
  exists st1,
    handleKeyPress " " demoMoved [] = Some (st1, []) /\
    Running st1 = false /\
    handleKeyPress " " st1 [] = Some (demoMoved, []).
Proof.
  destruct (space_toggles_pause demoMoved [] eq_refl eq_refl)
    as (st1 & H1 & H2 & H3).
  exists st1. repeat split; assumption.
Defined.

Lemma direction_mirrors_ref_witness :
  direction demoMoved = directionRef demoMoved.
Proof. apply direction_mirrors_ref, demoMoved_reachable. Defined.

(** ** Keys *)

Lemma heading_key_is_not_space : forall key d,
  keyHeading key = Some d -> String.eqb key " " = false.
Proof.
  intros key d H. destruct (String.eqb key " ") eqn:E; [|reflexivity].
  rewrite (space_is_no_heading key E) in H; discriminate.
Qed.

(** X16. In the Running state a movement key commits its heading unless that
    heading is the reverse of the committed one, in which case nothing
    changes; the effect depends on the key only through its heading, so the
    arrow key and the two letter keys of a direction act alike. *)
Theorem movement_key_effect : forall key d st tape,
  Running st = true ->
  keyHeading key = Some d ->
  handleKeyPress key st tape =
    Some (if dirEqb d (opposite (directionRef st)) then st
          else setDirection d (setDirectionRef d st), tape).
Proof.
  intros key d st tape HR Hk.
  apply Running_flags in HR as (Hs & Ho & Hp).
  unfold handleKeyPress.
  rewrite Hs, Ho, Hp, (heading_key_is_not_space key d Hk).
  cbn [negb orb]. unfold keyHeading in Hk.
  destruct (keyIn key ["ArrowUp"; "w"; "W"]%string).
  { injection Hk as <-. destruct (directionRef st); reflexivity. }
  destruct (keyIn key ["ArrowDown"; "s"; "S"]%string).
  { injection Hk as <-. destruct (directionRef st); reflexivity. }
  destruct (keyIn key ["ArrowLeft"; "a"; "A"]%string).
  { injection Hk as <-. destruct (directionRef st); reflexivity. }
  destruct (keyIn key ["ArrowRight"; "d"; "D"]%string).
  { injection Hk as <-. destruct (directionRef st); reflexivity. }
  discriminate.
Qed.

Lemma movement_key_effect_witness :
  handleKeyPress "w" demoMoved [] = handleKeyPress "ArrowUp" demoMoved [] /\
  handleKeyPress "w" demoMoved []
    = Some (setDirection UP (setDirectionRef UP demoMoved), []).
Proof.
  rewrite (movement_key_effect "w" UP demoMoved [] eq_refl eq_refl).
  rewrite (movement_key_effect "ArrowUp" UP demoMoved [] eq_refl eq_refl).
  split; reflexivity.
Defined.

(** X17. A key that is neither the space bar nor one of the twelve movement
    keys is ignored in every state. *)
Theorem other_keys_are_ignored : forall key st tape,
  keyHeading key = None -> key <> " "%string ->
  handleKeyPress key st tape = Some (st, tape).
Proof.
  intros key st tape Hk Hsp. apply String.eqb_neq in Hsp.
  unfold handleKeyPress. rewrite Hsp. unfold keyHeading in Hk.
  destruct (gameStarted st); [|reflexivity]. cbn [negb].
  destruct (gameOver st || isPaused st); [reflexivity|].
  destruct (keyIn key ["ArrowUp"; "w"; "W"]%string); [discriminate|].
  destruct (keyIn key ["ArrowDown"; "s"; "S"]%string); [discriminate|].
  destruct (keyIn key ["ArrowLeft"; "a"; "A"]%string); [discriminate|].
  destruct (keyIn key ["ArrowRight"; "d"; "D"]%string); [discriminate|].
  reflexivity.
Qed.

Lemma other_keys_are_ignored_witness :
  handleKeyPress "Enter" demoMoved [] = Some (demoMoved, []).
Proof.
  apply other_keys_are_ignored; [reflexivity|discriminate].
Defined.

(** ** Restarting *)

(** X18. Once a game is over, the PLAY AGAIN button, the space bar, and EXIT
    followed by START GAME all lead to the same fresh session, given the same
    draws. *)
Theorem restarts_coincide : forall st tape,
  reachable st -> gameOver st = true ->
  step (KeyDown " ") st tape = step ClickPlayAgain st tape /\
  (st1 <- step ClickExit st ;; step ClickStart st1) tape
    = step ClickPlayAgain st tape.
Proof.
  intros st tape Hr Ho.
  destruct (proj1 (reachable_flags st Hr) Ho) as [Hs Hp].
  unfold step, handleKeyPress, bind, ret, startGame, exitGame.
  rewrite Ho, Hs. cbn [negb String.eqb gameStarted setGameStarted setGameOver].
  split; [reflexivity|].
  unfold initGame, bind, ret.
  cbn [obstacleIdRef setFood setSpeed setScore setGameOver setDirectionRef
       setDirection setSnake setGameStarted].
  destruct (generateRandomPosition _ tape) as [[nf rest]|]; [|reflexivity].
  destruct (generateObstacles _ _ _ _ rest) as [[[obs nid] rest']|];
    [|reflexivity].
  destruct st; cbn in *. subst. reflexivity.
Qed.

Lemma restarts_coincide_witness :
  step (KeyDown " ") demoOver demoTape = step ClickPlayAgain demoOver demoTape.
Proof.
  refine (proj1 (restarts_coincide demoOver demoTape _ _)).
  - apply run_reachable, demoMoved_reachable.
  - reflexivity.
Defined.

(** X19. The first tick of a session always succeeds: whatever the state
    START GAME is pressed in and whatever the draws, a tick taken right after
    it moves the one-cell snake from (10,10) to (11,10) and changes nothing
    else, since that cell lies in the buffer zone the placement kept clear. *)
Theorem first_tick_of_a_session : forall st tape st1 tape1 tape2,
  isPaused st = false ->
  startGame st tape = Some (st1, tape1) ->
  moveSnake st1 tape2 = Some (setSnake [mkPosition 11 10] st1, tape2).
Proof.
  intros st tape st1 tape1 tape2 Hp Hstart. unfold startGame in Hstart.
  apply initGame_spec in Hstart
    as (Hsn & Hd & Ho & _ & _ & _ & Hs & Hp' & _ & Hpl).
  cbn [gameStarted isPaused setGameStarted] in Hs, Hp'.
  assert (HR : Running st1 = true)
    by (unfold Running; rewrite Hs, Ho, Hp', Hp; reflexivity).
  assert (HN : newHead st1 = Some (mkPosition 11 10))
    by (unfold newHead; rewrite Hsn, Hd; reflexivity).
  destruct (placed_next_cell_clear st1 _ Hpl HN eq_refl) as (Hob & Hf & _).
  rewrite (moveSnake_running st1 _ tape2 HR HN).
  assert (Hc : collides st1 (mkPosition 11 10) = false).
  { unfold collides, hitsSnake, hitsObstacle. rewrite Hsn.
    destruct (existsb (fun obs => samePos (position obs) (mkPosition 11 10))
                (obstacles st1)) eqn:E; [|reflexivity].
    apply some_obstacle_In in E. contradiction. }
  rewrite Hc. apply samePos_neq in Hf. rewrite Hf, Hsn. reflexivity.
Qed.

Lemma first_tick_of_a_session_witness :
  moveSnake demoStarted [] = Some (setSnake [mkPosition 11 10] demoStarted, []).
Proof.
  apply (first_tick_of_a_session initialState demoTape demoStarted []).
  - reflexivity.
  - vm_compute. reflexivity.
Defined.

(** ** Draws in range keep everything on the board *)

Lemma generateObstaclesLoop_inBounds :
  forall n i excl acc nid tape obs nid' rest,
  Forall validDraw tape ->
  Forall (fun o => inBounds (position o) = true) acc ->
  generateObstaclesLoop n i excl acc nid tape = Some ((obs, nid'), rest) ->
  Forall (fun o => inBounds (position o) = true) obs /\ Forall validDraw rest.
Proof.
  induction n as [|n IH]; intros i excl acc nid tape obs nid' rest HV Hacc.
  - cbn [generateObstaclesLoop]; unfold ret.
    intros E; injection E as <- _ <-. auto.
  - cbn [generateObstaclesLoop]; unfold bind.
    destruct (generateRandomPosition _ tape) as [[pos rest1]|] eqn:Eg;
      [|discriminate].
    apply (generateRandomPosition_inBounds _ _ _ _ HV) in Eg as [Hb HV1].
    apply IH; [assumption|].
    apply Forall_app; split; [assumption|]. constructor; [exact Hb|constructor].
Qed.

Lemma placement_inBounds :
  forall excl tape newFood rest count sn nid obs nid' tape',
  Forall validDraw tape ->
  generateRandomPosition excl tape = Some (newFood, rest) ->
  generateObstacles count sn newFood nid rest = Some ((obs, nid'), tape') ->
  inBounds newFood = true /\
  Forall (fun o => inBounds (position o) = true) obs.
Proof.
  intros excl tape nf rest count sn nid obs nid' tape' HV Hf Ho.
  apply (generateRandomPosition_inBounds _ _ _ _ HV) in Hf as [Hb HV1].
  split; [assumption|]. unfold generateObstacles in Ho.
  apply (generateObstaclesLoop_inBounds _ _ _ _ _ _ _ _ _ HV1) in Ho;
    [apply Ho|constructor].
Qed.

Lemma effect_inBounds : forall st tape st' tape',
  Forall validDraw tape ->
  effect st tape st' tape' ->
  inBounds (food st) = true /\
  Forall (fun o => inBounds (position o) = true) (obstacles st) ->
  inBounds (food st') = true /\
  Forall (fun o => inBounds (position o) = true) (obstacles st').
Proof.
  intros st tape st' tape' HV Heff IH.
  effect_cases Heff; cbn [food obstacles setGameStarted setSnake setIsPaused
    setDirection setDirectionRef exitGame setGameOver]; auto;
    eapply placement_inBounds; eassumption.
Qed.

Lemma run_inBounds : forall es st,
  validRun es ->
  inBounds (food st) = true /\
  Forall (fun o => inBounds (position o) = true) (obstacles st) ->
  inBounds (food (run es st)) = true /\
  Forall (fun o => inBounds (position o) = true) (obstacles (run es st)).
Proof.
  induction es as [|[e tape] es IH]; intros st HV Hst; [assumption|].
  inversion HV as [|? ? Ht Hes]; subst. cbn [snd] in Ht. cbn [run].
  destruct (step e st tape) as [[st' tape']|] eqn:E; [|assumption].
  apply IH; [assumption|].
  eapply effect_inBounds; [exact Ht | eapply step_effect; exact E | exact Hst].
Qed.

(** X20. As long as [Math.random] returns numbers in [0,1), the food, every
    obstacle and every snake segment of every state of a run are on the
    board. *)
Theorem valid_draws_keep_cells_on_board : forall es,
  validRun es ->
  inBounds (food (run es initialState)) = true /\
  Forall (fun o => inBounds (position o) = true)
         (obstacles (run es initialState)) /\
  Forall (fun c => inBounds c = true) (snake (run es initialState)).
Proof.
  intros es HV.
  destruct (run_inBounds es initialState HV) as [Hf Ho].
  { split; [reflexivity|constructor]. }
  split; [exact Hf|]. split; [exact Ho|].
  apply (reachable_snake _ (run_reachable es _ reachable_mount)).
Qed.

Lemma demoTape_valid : Forall validDraw demoTape.
Proof.
  unfold demoTape, validDraw, Qle, Qlt.
  repeat constructor; simpl; lia.
Qed.

Lemma valid_draws_keep_cells_on_board_witness :
  inBounds (food demoMoved) = true /\
  Forall (fun o => inBounds (position o) = true) (obstacles demoMoved) /\
  Forall (fun c => inBounds c = true) (snake demoMoved).
Proof.
  apply (valid_draws_keep_cells_on_board [(ClickStart, demoTape); (Tick, [])]).
  apply Forall_cons; [exact demoTape_valid|].
  apply Forall_cons; [apply Forall_nil | apply Forall_nil].
Defined.

(** ** Starvation *)

(** X21. The loop of [generateRandomPosition] has no exit for a full board:
    when the snake after eating, together with its buffer zone, covers all
    225 cells, the tick on which it eats never returns, whatever the draws. *)
Theorem eating_on_a_covered_board_never_returns : forall st h tape,
  Running st = true ->
  newHead st = Some h ->
  collides st h = false ->
  h = food st ->
  coversBoard ((h :: snake st) ++ getSnakeBufferZone (h :: snake st)) = true ->
  Forall validDraw tape ->
  moveSnake st tape = None.
Proof.
  intros st h tape HR HN Hc Hf Hcov HV.
  rewrite (moveSnake_running st h tape HR HN), Hc.
  rewrite Hf at 1. rewrite samePos_refl.
  unfold growAndReplace, bind.
  rewrite (generateRandomPosition_starves _ Hcov tape HV). reflexivity.
Qed.

Lemma eating_on_a_covered_board_never_returns_witness :
  moveSnake (sessionWith windingSnake (mkPosition 14 13) RIGHT 810 0 [])
            demoTape = None.
Proof.
  apply (eating_on_a_covered_board_never_returns _ (mkPosition 14 13)).
  - reflexivity.
  - reflexivity.
  - vm_compute; reflexivity.
  - reflexivity.
  - vm_compute; reflexivity.
  - exact demoTape_valid.
Defined.

(** ** The candidate that is returned *)

Lemma firstFreeRound_shift : forall excl (s : Draws) k,
  firstFreeRound excl s (S k) ->
  In (drawnCell s 0) excl /\ firstFreeRound excl (shiftRounds 1 s) k.
Proof.
  intros excl s k [Hfree Hbefore]. split; [apply Hbefore; lia|].
  split.
  - change (drawnCell (shiftRounds 1 s) k)
      with (drawnCell (fun i => s (S (S i))) k).
    rewrite drawnCell_shift; assumption.
  - intros j Hj.
    change (drawnCell (shiftRounds 1 s) j)
      with (drawnCell (fun i => s (S (S i))) j).
    rewrite drawnCell_shift. apply Hbefore; lia.
Qed.

(** X22. [generateRandomPosition] returns the first candidate that is not
    excluded: if round [k] is the first free one, the loop calls
    [Math.random] exactly 2(k+1) times and returns the cell of round [k];
    with fewer draws it has not returned yet. *)
Theorem placement_returns_first_free_candidate : forall excl k (s : Draws),
  firstFreeRound excl s k ->
  (forall n,
     generateRandomPosition excl (prefix s (2 * S k + n))
     = Some (drawnCell s k, prefix (shiftRounds (S k) s) n)) /\
  (forall m, (m < 2 * S k)%nat ->
     generateRandomPosition excl (prefix s m) = None).
Proof.
  intros excl; induction k as [|k IH]; intros s Hk.
  - destruct Hk as [Hfree _]. apply some_not_In in Hfree. split.
    + intros n. change (2 * 1 + n)%nat with (S (S n)).
      rewrite prefix_two_more. cbn [generateRandomPosition].
      unfold drawnCell in Hfree; simpl in Hfree. rewrite Hfree. reflexivity.
    + intros m Hm. destruct m as [|[|m]]; [reflexivity|reflexivity|lia].
  - apply firstFreeRound_shift in Hk as [H0 Hk].
    apply some_In in H0. unfold drawnCell in H0; simpl in H0.
    destruct (IH _ Hk) as [IH1 IH2]. split.
    + intros n.
      replace (2 * S (S k) + n)%nat with (S (S (2 * S k + n))) by lia.
      rewrite prefix_two_more. cbn [generateRandomPosition]. rewrite H0.
      change (fun i => s (S (S i))) with (shiftRounds 1 s).
      rewrite IH1.
      change (drawnCell (shiftRounds 1 s) k)
        with (drawnCell (fun i => s (S (S i))) k).
      rewrite drawnCell_shift. do 2 f_equal.
      apply prefix_ext. intros i; unfold shiftRounds; f_equal; lia.
    + intros m Hm. destruct m as [|[|m]]; [reflexivity|reflexivity|].
      rewrite prefix_two_more. cbn [generateRandomPosition]. rewrite H0.
      apply (IH2 m). lia.
Qed.

Lemma placement_returns_first_free_candidate_witness :
  generateRandomPosition [mkPosition 0 0] (prefix cycleDraws 4)
  = Some (mkPosition 1 0, []).
Proof.
  assert (F : firstFreeRound [mkPosition 0 0] cycleDraws 1).
  { split.
    - rewrite cycleDraws_round. simpl. intros [H|[]]; discriminate.
    - intros j Hj. assert (j = 0%nat) by lia. subst.
      rewrite cycleDraws_round. left; reflexivity. }
  exact (proj1 (placement_returns_first_free_candidate _ 1 cycleDraws F) 0%nat).
Defined.

(** ** Who changes what *)

(** X23. A key press that does not restart a finished game never touches the
    board or the score: snake, food, obstacles, score, speed, [highScore],
    the obstacle counter and the started and over flags are as before, and no
    random number is drawn. *)
Theorem keys_leave_the_board_alone : forall key st tape st' tape',
  handleKeyPress key st tape = Some (st', tape') ->
  startsSession (KeyDown key) st = false ->
  tape' = tape /\
  snake st' = snake st /\ food st' = food st /\
  obstacles st' = obstacles st /\ score st' = score st /\
  speed st' = speed st /\ highScore st' = highScore st /\
  obstacleIdRef st' = obstacleIdRef st /\
  gameStarted st' = gameStarted st /\ gameOver st' = gameOver st.
Proof.
  intros key st tape st' tape'; unfold handleKeyPress, startsSession.
  destruct (gameStarted st) eqn:Hs; cbn [negb andb].
  2: { intros E _; injection E as <- <-. repeat split; auto. }
  destruct (String.eqb key " ").
  { destruct (gameOver st) eqn:Ho; [intros _ H; discriminate H|].
    intros E _; injection E as <- <-. repeat split; auto. }
  destruct (gameOver st || isPaused st).
  { intros E _; injection E as <- <-. repeat split; auto. }
  match goal with
  | |- match ?nd with _ => _ end tape = _ -> _ => destruct nd as [dir|]
  end; intros E _; injection E as <- <-; repeat split; auto.
Qed.

Lemma keys_leave_the_board_alone_witness :
  exists st',
    handleKeyPress "ArrowUp" demoMoved [] = Some (st', []) /\
    snake st' = snake demoMoved /\ score st' = score demoMoved.
Proof.
  destruct (handleKeyPress "ArrowUp" demoMoved []) as [[st' tape']|] eqn:E;
    [|vm_compute in E; discriminate E].
  destruct (keys_leave_the_board_alone "ArrowUp" demoMoved [] st' tape' E
              eq_refl) as (-> & Hs & _ & _ & Hsc & _).
  exists st'. repeat split; assumption.
Defined.

(** X24. A tick never touches what the keys control: the committed heading,
    the [direction] cell, the paused flag and the started flag are as
    before. *)
Theorem ticks_leave_the_controls_alone : forall st tape st' tape',
  moveSnake st tape = Some (st', tape') ->
  directionRef st' = directionRef st /\ direction st' = direction st /\
  isPaused st' = isPaused st /\ gameStarted st' = gameStarted st.
Proof.
  intros st tape st' tape' HM.
  destruct (Running st) eqn:HR.
  2: { rewrite (moveSnake_not_running st tape HR) in HM.
       injection HM as <- _; auto. }
  destruct (newHead st) as [h|] eqn:HN.
  2: { rewrite (moveSnake_empty st tape HN) in HM.
       injection HM as <- _; auto. }
  rewrite (moveSnake_running st h tape HR HN) in HM.
  destruct (collides st h).
  { injection HM as <- _. rewrite endGame_eq; auto. }
  destruct (samePos h (food st)).
  - apply growAndReplace_inv in HM as (nf & obs & nid & rest & _ & _ & ->).
    auto.
  - injection HM as <- _; auto.
Qed.

Lemma ticks_leave_the_controls_alone_witness :
  exists st' tape',
    moveSnake demoMoved eatTape = Some (st', tape') /\
    directionRef st' = RIGHT /\ isPaused st' = false.
Proof.
  destruct (moveSnake demoMoved eatTape) as [[st' tape']|] eqn:E;
    [|vm_compute in E; discriminate E].
  destruct (ticks_leave_the_controls_alone demoMoved eatTape st' tape' E)
    as (Hd & _ & Hp & _).
  exists st', tape'. repeat split; assumption.
Defined.

(** X25. On a surviving tick the body follows the head: the new snake is the
    new head followed by the whole old snake when the snake eats, and by the
    old snake without its last cell otherwise. *)
Theorem body_follows_head : forall st h tape st' tape',
  Running st = true ->
  newHead st = Some h ->
  moveSnake st tape = Some (st', tape') ->
  gameOver st' = false ->
  snake st' = if samePos h (food st) then h :: snake st
              else h :: removelast (snake st).
Proof.
  intros st h tape st' tape' HR HN HM Ho.
  rewrite (moveSnake_running st h tape HR HN) in HM.
  destruct (collides st h).
  { injection HM as <- _. rewrite endGame_eq in Ho. discriminate. }
  destruct (samePos h (food st)).
  - apply growAndReplace_inv in HM as (nf & obs & nid & rest & _ & _ & ->).
    reflexivity.
  - injection HM as <- _. cbn [snake setSnake].
    unfold newHead in HN.
    destruct (snake st) as [|a l]; [discriminate|reflexivity].
Qed.

Lemma body_follows_head_witness :
  exists st' tape',
    moveSnake (sessionWith [mkPosition 5 5; mkPosition 5 6; mkPosition 6 6]
                 (mkPosition 3 3) UP 20 0 threeObstacles) []
      = Some (st', tape') /\
    snake st' = [mkPosition 5 4; mkPosition 5 5; mkPosition 5 6].
Proof.
  destruct (moveSnake (sessionWith [mkPosition 5 5; mkPosition 5 6;
                                    mkPosition 6 6]
                 (mkPosition 3 3) UP 20 0 threeObstacles) [])
    as [[st' tape']|] eqn:E; [|vm_compute in E; discriminate E].
  exists st', tape'; split; [reflexivity|].
  rewrite (body_follows_head
             (sessionWith [mkPosition 5 5; mkPosition 5 6; mkPosition 6 6]
                (mkPosition 3 3) UP 20 0 threeObstacles)
             (mkPosition 5 4) [] st' tape' eq_refl eq_refl E).
  - reflexivity.
  - vm_compute in E. injection E as <- _. reflexivity.
Defined.
